(** * The [Fsx] facade of packages/core/src/fsx.js

    A shallow embedding of the [Fsx] class: its three private fields become a
    record, its methods become computations in a small state-and-exception
    monad, and the implementation objects it dispatches to are references
    into a fixed object store whose callable members act on an opaque world.

    Conventions of the embedding:
    - a method is embedded with the parameters its source signature declares;
      rest parameters ([...args]) become [list value]; a call with any list
      of arguments binds them to the declared parameters as JavaScript does
      ([bind_call]);
    - an exception leaves the state as the statements before the [throw]
      left it, exactly as in JavaScript;
    - an [async] method is represented by the settlement of the promise it
      returns: [inl v] when it fulfils with [v], [inr e] when it rejects with
      [e];
    - [Date.now()] is a reading taken from the world, and every reading may
      advance the world. *)

From Stdlib Require Import List String Ascii ZArith Bool Lia.
Import ListNotations.

Open Scope string_scope.

(** ** JavaScript values *)

(** Object identity: two references are [===] exactly when they are equal. *)
Definition ref := nat.

Inductive value : Type :=
| VUndefined
| VNull
| VBoolean (b : bool)
| VNumber (n : Z)
| VString (s : string)
| VObject (r : ref).

(** What a [throw] can carry: the two error classes of fsx.js, the builtin
    [TypeError] and [Error], or any value thrown by a backend. *)
Inductive exn : Type :=
| NoSuchMethodError (message : string)
| ImplAreadySetError (message : string)
| TypeError (message : string)
| Error (message : string)
| Thrown (v : value).

(** [!value] negated: the truthiness of a value. *)
Definition truthy (v : value) : bool :=
  match v with
  | VUndefined | VNull => false
  | VBoolean b => b
  | VNumber n => negb (n =? 0)%Z
  | VString EmptyString => false
  | VString _ => true
  | VObject _ => true
  end.

(** [typeof v === "string"]. *)
Definition typeof_is_string (v : value) : bool :=
  match v with
  | VString _ => true
  | _ => false
  end.

(** A callable member of an implementation: called with [this], the argument
    list and the world, it returns or throws and leaves a new world. *)
Definition Method (World : Type) : Type :=
  ref -> list value -> World -> (value + exn) * World.

(** The value of a property read [impl[methodName]]: a function, or any
    other value ([VUndefined] when the property is absent). *)
Inductive member (World : Type) : Type :=
| Data (v : value)
| Function (f : Method World).

Arguments Data {World} v.
Arguments Function {World} f.

(** [typeof m === "function"]. *)
Definition typeof_is_function {World : Type} (m : member World) : bool :=
  match m with
  | Function _ => true
  | Data _ => false
  end.

(** ** Log entries and the map of open logs *)

(** class LogEntry *)
Record LogEntry : Type := mkLogEntry {
  methodName : string;
  args : list value;
  timestamp : Z
}.

(** What a log entry says about the call, its creation time left aside. *)
Definition entry_call (e : LogEntry) : string * list value :=
  (methodName e, args e).

(** [Map<string, Array<LogEntry>>], in insertion order (the order in which
    [Map.prototype.values] visits it). *)
Definition LogMap : Type := list (string * list LogEntry).

Fixpoint Map_get (name : string) (m : LogMap) : option (list LogEntry) :=
  match m with
  | [] => None
  | (k, v) :: rest => if String.eqb k name then Some v else Map_get name rest
  end.

Definition Map_has (name : string) (m : LogMap) : bool :=
  match Map_get name m with
  | Some _ => true
  | None => false
  end.

(** [Map.prototype.set]: an existing key keeps its position, a new key goes
    last. *)
Fixpoint Map_set (name : string) (v : list LogEntry) (m : LogMap) : LogMap :=
  match m with
  | [] => [(name, v)]
  | (k, v0) :: rest =>
      if String.eqb k name then (k, v) :: rest
      else (k, v0) :: Map_set name v rest
  end.

Definition Map_delete (name : string) (m : LogMap) : LogMap :=
  filter (fun kv => negb (String.eqb (fst kv) name)) m.

Definition Map_keys (m : LogMap) : list string := map fst m.

(** ** The facade's state *)

(** The private fields [#baseImpl], [#impl] and [#logs]. *)
Record Fsx : Type := mkFsx {
  baseImpl : ref;
  impl : ref;
  logs : LogMap
}.

Definition with_impl (this : Fsx) (i : ref) : Fsx :=
  {| baseImpl := baseImpl this; impl := i; logs := logs this |}.

Definition with_logs (this : Fsx) (m : LogMap) : Fsx :=
  {| baseImpl := baseImpl this; impl := impl this; logs := m |}.

(** [new Fsx({ impl })] *)
Definition new_Fsx (impl0 : ref) : Fsx :=
  {| baseImpl := impl0; impl := impl0; logs := [] |}.

(** ** Error messages *)

Definition dquote : string := String "034"%char EmptyString.

(** [`Method "${methodName}" does not exist on impl.`] *)
Definition NoSuchMethod_message (name : string) : string :=
  "Method " ++ dquote ++ name ++ dquote ++ " does not exist on impl.".

(** [`Log "${name}" already exists.`] *)
Definition log_exists_message (name : string) : string :=
  "Log " ++ dquote ++ name ++ dquote ++ " already exists.".

(** [`Log "${name}" does not exist.`] *)
Definition log_missing_message (name : string) : string :=
  "Log " ++ dquote ++ name ++ dquote ++ " does not exist.".

(** [new NoSuchMethodError(methodName)] *)
Definition new_NoSuchMethodError (name : string) : exn :=
  NoSuchMethodError (NoSuchMethod_message name).

(** [new ImplAreadySetError()] *)
Definition new_ImplAreadySetError : exn :=
  ImplAreadySetError "Implementation already set.".

(** ** The public surface of the class and the capability interface *)

(** The public members of [class Fsx], in source order. *)
Inductive FsxMethod : Type :=
| M_logStart | M_logEnd | M_isBaseImpl | M_setImpl | M_resetImpl
| M_text | M_json | M_arrayBuffer | M_write.

Definition Fsx_prototype : list (string * FsxMethod) :=
  [ ("logStart", M_logStart); ("logEnd", M_logEnd);
    ("isBaseImpl", M_isBaseImpl); ("setImpl", M_setImpl);
    ("resetImpl", M_resetImpl);
    ("text", M_text); ("json", M_json);
    ("arrayBuffer", M_arrayBuffer); ("write", M_write) ].

(** Property lookup [fsx[name]] on an instance of the class. *)
Fixpoint lookup_method (name : string) (l : list (string * FsxMethod))
  : option FsxMethod :=
  match l with
  | [] => None
  | (k, m) :: rest => if String.eqb k name then Some m else lookup_method name rest
  end.

Definition Fsx_member (name : string) : option FsxMethod :=
  lookup_method name Fsx_prototype.

(** The name a public method hands to [#callImplMethod], when it does. *)
Definition dispatch_target (m : FsxMethod) : option string :=
  match m with
  | M_text => Some "text"
  | M_json => Some "json"
  | M_arrayBuffer => Some "arrayBuffer"
  | M_write => Some "write"
  | M_logStart | M_logEnd | M_isBaseImpl | M_setImpl | M_resetImpl => None
  end.

(** The operations of the implementation interface (hfs-types.ts), in
    declaration order. *)
Definition Impl_operations : list string :=
  [ "text"; "json"; "arrayBuffer"; "bytes"; "write"; "isFile"; "isDirectory";
    "createDirectory"; "delete"; "deleteAll"; "list"; "size"; "copy";
    "copyAll"; "move" ].

(** Does the facade have a public method of that name that dispatches to the
    implementation member of the same name? *)
Definition Fsx_dispatches (op : string) : bool :=
  match Fsx_member op with
  | Some m =>
      match dispatch_target m with
      | Some target => String.eqb target op
      | None => false
      end
  | None => false
  end.

(** ** A sample environment, used to run the model on concrete inputs *)

(** The sample world is a counter that doubles as the clock. *)
Definition sample_now (w : nat) : Z * nat := (Z.of_nat w, S w).

(** Object 0 has a [text] method only; object 1 has [text] and [bytes]
    methods, a [write] method that throws and a non-callable [json]; every
    other object is empty. *)
Definition sample_member (r : ref) (name : string) : member nat :=
  match r with
  | 0 =>
      if String.eqb name "text"
      then Function (fun _ _ w => (inl (VString "base"), w))
      else Data VUndefined
  | 1 =>
      if String.eqb name "text"
      then Function (fun _ a w => (inl (hd VUndefined a), S w))
      else if String.eqb name "bytes"
      then Function (fun _ a w => (inl (hd VUndefined a), w))
      else if String.eqb name "write"
      then Function (fun _ _ w => (inr (Thrown (VString "read-only")), w))
      else if String.eqb name "json"
      then Data (VNumber 1)
      else Data VUndefined
  | _ => Data VUndefined
  end.

(** An object store in which every member of every object is a function
    that returns [arguments.length]. *)
Definition counting_member (r : ref) (name : string) : member nat :=
  Function (fun _ a w => (inl (VNumber (Z.of_nat (List.length a))), w)).

(** The facade after [new Fsx({impl: 0})], [setImpl(1)] and [logStart("a")]. *)
Definition sample_swapped : Fsx :=
  {| baseImpl := 0; impl := 1; logs := [("a", [])] |}.

(** The facade after [new Fsx({impl: 0})], [logStart("a")], [text("f")] and
    [logStart("b")], the world starting at 5. *)
Definition sample_two_logs : Fsx :=
  {| baseImpl := 0; impl := 0;
     logs := [("a", [mkLogEntry "text" [VString "f"] 5]); ("b", [])] |}.

(** ** Calls of the data methods *)

(** One call of a data method, with the parameters of its signature. *)
Inductive DataCall : Type :=
| Text (filePath : value)
| Json (filePath : value)
| ArrayBuffer (filePath : value)
| Write (filePath data : value).

(** The public method's own name. *)
Definition call_name (c : DataCall) : string :=
  match c with
  | Text _ => "text"
  | Json _ => "json"
  | ArrayBuffer _ => "arrayBuffer"
  | Write _ _ => "write"
  end.

(** The arguments the caller passed. *)
Definition call_args (c : DataCall) : list value :=
  match c with
  | Text filePath => [filePath]
  | Json filePath => [filePath]
  | ArrayBuffer filePath => [filePath]
  | Write filePath data => [filePath; data]
  end.

(** The four data methods of the class. *)
Inductive DataMethod : Type :=
| DText
| DJson
| DArrayBuffer
| DWrite.

Definition method_name (m : DataMethod) : string :=
  match m with
  | DText => "text"
  | DJson => "json"
  | DArrayBuffer => "arrayBuffer"
  | DWrite => "write"
  end.

(** The number of parameters in the method's signature. *)
Definition declared_parameters (m : DataMethod) : nat :=
  match m with
  | DText | DJson | DArrayBuffer => 1
  | DWrite => 2
  end.

(** The value of the [k]-th declared parameter in a call with the
    arguments [actuals]: the [k]-th argument, [undefined] when the caller
    gave fewer. *)
Definition parameter (k : nat) (actuals : list value) : value :=
  nth k actuals VUndefined.

(** A call [fsx.m(...actuals)] seen from inside the method: the declared
    parameters bound, the arguments beyond them out of reach. *)
Definition bind_call (m : DataMethod) (actuals : list value) : DataCall :=
  match m with
  | DText => Text (parameter 0 actuals)
  | DJson => Json (parameter 0 actuals)
  | DArrayBuffer => ArrayBuffer (parameter 0 actuals)
  | DWrite => Write (parameter 0 actuals) (parameter 1 actuals)
  end.

(** ** The methods of the class *)

Section Facade.

Variable World : Type.

(** [Date.now()] *)
Variable Date_now : World -> Z * World.

(** The object store: [get_member r name] is the value of [r[name]]. *)
Variable get_member : ref -> string -> member World.

(** A computation on the facade: it returns or throws, and leaves a state
    and a world either way. *)
Definition M (A : Type) : Type := Fsx -> World -> (A + exn) * Fsx * World.

Definition ret {A : Type} (a : A) : M A :=
  fun this w => (inl a, this, w).

Definition throw {A : Type} (e : exn) : M A :=
  fun this w => (inr e, this, w).

Definition bind {A B : Type} (c : M A) (k : A -> M B) : M B :=
  fun this w =>
    match c this w with
    | (inl a, this', w') => k a this' w'
    | (inr e, this', w') => (inr e, this', w')
    end.

Definition read {A : Type} (f : Fsx -> A) : M A :=
  fun this w => (inl (f this), this, w).

Definition update (f : Fsx -> Fsx) : M unit :=
  fun this w => (inl tt, f this, w).

Notation "x <- c ;; k" := (bind c (fun x => k))
  (at level 100, c at next level, right associativity).
Notation "c ;;; k" := (bind c (fun _ => k))
  (at level 100, right associativity).

Definition result_of {A : Type} (r : (A + exn) * Fsx * World) : A + exn :=
  fst (fst r).
Definition state_of {A : Type} (r : (A + exn) * Fsx * World) : Fsx :=
  snd (fst r).
Definition world_of {A : Type} (r : (A + exn) * Fsx * World) : World :=
  snd r.

(** The loop of [#log]: every array of the map, in the map's order, gets a
    new entry whose timestamp is read when the entry is built. *)
Fixpoint push_all (mname : string) (margs : list value) (m : LogMap) (w : World)
  : LogMap * World :=
  match m with
  | [] => ([], w)
  | (k, entries) :: rest =>
      let (t, w1) := Date_now w in
      let (rest', w2) := push_all mname margs rest w1 in
      ((k, (entries ++ [mkLogEntry mname margs t])%list) :: rest', w2)
  end.

(** [#log(methodName, ...args)] *)
Definition log (mname : string) (margs : list value) : M unit :=
  fun this w =>
    let (m, w') := push_all mname margs (logs this) w in
    (inl tt, with_logs this m, w').

(** [logStart(name)] *)
Definition logStart (name : value) : M unit :=
  if negb (truthy name) || negb (typeof_is_string name)
  then throw (TypeError "Log name must be a non-empty string.")
  else
    match name with
    | VString s =>
        has <- read (fun this => Map_has s (logs this)) ;;
        if has
        then throw (Error (log_exists_message s))
        else update (fun this => with_logs this (Map_set s [] (logs this)))
    | _ => throw (TypeError "Log name must be a non-empty string.")
    end.

(** [logEnd(name)] *)
Definition logEnd (name : string) : M (list LogEntry) :=
  found <- read (fun this => Map_get name (logs this)) ;;
  match found with
  | Some entries =>
      update (fun this => with_logs this (Map_delete name (logs this))) ;;;
      ret entries
  | None => throw (Error (log_missing_message name))
  end.

(** [isBaseImpl()] *)
Definition isBaseImpl : M bool :=
  read (fun this => Nat.eqb (impl this) (baseImpl this)).

(** [setImpl(impl)] *)
Definition setImpl (impl' : ref) : M unit :=
  log "implSet" [VObject impl'] ;;;
  swapped <- read (fun this => negb (Nat.eqb (impl this) (baseImpl this))) ;;
  if swapped
  then throw new_ImplAreadySetError
  else update (fun this => with_impl this impl').

(** [resetImpl()] *)
Definition resetImpl : M unit :=
  log "implReset" [] ;;;
  update (fun this => with_impl this (baseImpl this)).

(** [#assertImplMethod(methodName)] *)
Definition assertImplMethod (mname : string) : M unit :=
  callable <- read (fun this => typeof_is_function (get_member (impl this) mname)) ;;
  if negb callable
  then throw (new_NoSuchMethodError mname)
  else ret tt.

(** The call [this.#impl[methodName](...args)]: the member is read again and
    called with the implementation as [this]. *)
Definition call_member (mname : string) (margs : list value) : M value :=
  fun this w =>
    match get_member (impl this) mname with
    | Function f => let (r, w') := f (impl this) margs w in (r, this, w')
    | Data _ => (inr (TypeError "this.#impl[methodName] is not a function"), this, w)
    end.

(** [#callImplMethod(methodName, ...args)] *)
Definition callImplMethod (mname : string) (margs : list value) : M value :=
  log mname margs ;;;
  assertImplMethod mname ;;;
  call_member mname margs.

(** [async text(filePath)] *)
Definition text (filePath : value) : M value :=
  callImplMethod "text" [filePath].

(** [async json(filePath)] *)
Definition json (filePath : value) : M value :=
  callImplMethod "json" [filePath].

(** [async arrayBuffer(filePath)] *)
Definition arrayBuffer (filePath : value) : M value :=
  callImplMethod "arrayBuffer" [filePath].

(** [async write(filePath, data)] *)
Definition write (filePath data : value) : M value :=
  callImplMethod "write" [filePath; data].

(** Running one call of a data method. *)
Definition invoke (c : DataCall) : M value :=
  match c with
  | Text filePath => text filePath
  | Json filePath => json filePath
  | ArrayBuffer filePath => arrayBuffer filePath
  | Write filePath data => write filePath data
  end.

(** The call [fsx.m(...actuals)] with any list of arguments. *)
Definition apply_method (m : DataMethod) (actuals : list value) : M value :=
  invoke (bind_call m actuals).

(** The pair a log entry should show for a data call. *)
Definition recorded (c : DataCall) : string * list value :=
  (call_name c, call_args c).

(** A caller making several data calls one after the other, each awaited
    and its failure, if any, caught: the next call starts from the state and
    the world the previous one left. *)
Fixpoint run_calls (cs : list DataCall) (this : Fsx) (w : World) : Fsx * World :=
  match cs with
  | [] => (this, w)
  | c :: rest =>
      let r := invoke c this w in
      run_calls rest (state_of r) (world_of r)
  end.

(** [new] is [old] with one entry for the call [(mname, margs)] pushed at
    its end, under the same name. *)
Definition appended (mname : string) (margs : list value)
  (old new : string * list LogEntry) : Prop :=
  fst new = fst old /\
  exists e, snd new = (snd old ++ [e])%list /\ entry_call e = (mname, margs).

(** ** Statements that are tested against the code below *)

(** A data method called with the arguments [actuals] calls the
    implementation's member with exactly [actuals] and hands back what the
    member returns or throws. *)
Definition forwards_actuals (m : DataMethod) (actuals : list value)
  (this : Fsx) (w : World) : Prop :=
  forall f : Method World,
    get_member (impl this) (method_name m) = Function f ->
    let logged := log (method_name m) actuals this w in
    result_of (apply_method m actuals this w) =
    fst (f (impl this) actuals (world_of logged)).

(** A second [setImpl] with no [resetImpl] in between is refused and the
    first implementation stays active. *)
Definition second_setImpl_refused (this : Fsx) (w : World) (first second : ref)
  : Prop :=
  let r1 := setImpl first this w in
  let r2 := setImpl second (state_of r1) (world_of r1) in
  result_of r1 = inl tt ->
  result_of r2 = inr new_ImplAreadySetError /\ impl (state_of r2) = first.

(** [isBaseImpl()] answers false right after a [setImpl] that did not
    throw. *)
Definition not_base_after_setImpl (this : Fsx) (w : World) (i : ref) : Prop :=
  let r := setImpl i this w in
  result_of r = inl tt ->
  result_of (isBaseImpl (state_of r) (world_of r)) = inl false.

(** A [setImpl] that throws leaves the logs and the active implementation
    as they were. *)
Definition refused_setImpl_leaves_state (this : Fsx) (w : World) (i : ref)
  : Prop :=
  let r := setImpl i this w in
  result_of r = inr new_ImplAreadySetError ->
  logs (state_of r) = logs this /\ impl (state_of r) = impl this.

(** ** Sequences of operations *)

(** One use of a public method by a caller. *)
Inductive Op : Type :=
| OpLogStart (name : value)
| OpLogEnd (name : string)
| OpIsBaseImpl
| OpSetImpl (i : ref)
| OpResetImpl
| OpCall (c : DataCall).

(** The state and the world a caller is left with after one operation,
    whether it returned or threw. *)
Definition step (o : Op) (this : Fsx) (w : World) : Fsx * World :=
  match o with
  | OpLogStart name =>
      let r := logStart name this w in (state_of r, world_of r)
  | OpLogEnd name =>
      let r := logEnd name this w in (state_of r, world_of r)
  | OpIsBaseImpl =>
      let r := isBaseImpl this w in (state_of r, world_of r)
  | OpSetImpl i =>
      let r := setImpl i this w in (state_of r, world_of r)
  | OpResetImpl =>
      let r := resetImpl this w in (state_of r, world_of r)
  | OpCall c =>
      let r := invoke c this w in (state_of r, world_of r)
  end.

Fixpoint run_ops (os : list Op) (this : Fsx) (w : World) : Fsx * World :=
  match os with
  | [] => (this, w)
  | o :: rest =>
      let s := step o this w in
      run_ops rest (fst s) (snd s)
  end.

(** What an operation passes to [#log], if it calls it at all. *)
Definition op_record (o : Op) : list (string * list value) :=
  match o with
  | OpCall c => [recorded c]
  | OpSetImpl i => [("implSet", [VObject i])]
  | OpResetImpl => [("implReset", [])]
  | OpLogStart _ | OpLogEnd _ | OpIsBaseImpl => []
  end.

(** Is the operation a [logEnd] of that log? *)
Definition ends_log (name : string) (o : Op) : bool :=
  match o with
  | OpLogEnd n => String.eqb n name
  | _ => false
  end.

(** The implementations a sequence of operations hands to [setImpl]. *)
Definition setImpl_arguments (os : list Op) : list ref :=
  flat_map (fun o => match o with OpSetImpl i => [i] | _ => [] end) os.

(** The names of the open logs are pairwise distinct and none is empty. *)
Definition names_well_formed (this : Fsx) : Prop :=
  NoDup (Map_keys (logs this)) /\
  Forall (fun k => k <> EmptyString) (Map_keys (logs this)).

(** The method names [#log] is ever called with, each with the number of
    arguments its caller passes. *)
Definition recordable_shapes : list (string * nat) :=
  [ ("implSet", 1); ("implReset", 0);
    ("text", 1); ("json", 1); ("arrayBuffer", 1); ("write", 2) ].

Definition recordable (e : LogEntry) : Prop :=
  In (methodName e, List.length (args e)) recordable_shapes.

(** Every entry of every open log is [recordable]. *)
Definition entries_recordable (this : Fsx) : Prop :=
  Forall (fun kv => Forall recordable (snd kv)) (logs this).

(** [n] successive clock readings. *)
Fixpoint readings (n : nat) (w : World) : list Z * World :=
  match n with
  | 0 => ([], w)
  | S k =>
      let (t, w1) := Date_now w in
      let (ts, w2) := readings k w1 in
      (t :: ts, w2)
  end.

(** The timestamp of the newest entry of a log, if it has one. *)
Definition last_timestamp (kv : string * list LogEntry) : option Z :=
  match rev (snd kv) with
  | e :: _ => Some (timestamp e)
  | [] => None
  end.

(** ** The map operations *)

Lemma Map_get_delete_other (a b : string) (m : LogMap) :
  a <> b -> Map_get b (Map_delete a m) = Map_get b m.
Proof.
  intros Hab. induction m as [|[k v] rest IH]; simpl; [reflexivity|].
  destruct (String.eqb_spec k a) as [->|Hka]; simpl.
  - destruct (String.eqb_spec a b); [contradiction|exact IH].
  - destruct (String.eqb_spec k b); [reflexivity|exact IH].
Qed.

Lemma Map_get_delete_same (a : string) (m : LogMap) :
  Map_get a (Map_delete a m) = None.
Proof.
  induction m as [|[k v] rest IH]; simpl; [reflexivity|].
  destruct (String.eqb_spec k a) as [->|Hka]; simpl; [exact IH|].
  destruct (String.eqb_spec k a); [contradiction|exact IH].
Qed.

Lemma Map_get_set (k n : string) (v : list LogEntry) (m : LogMap) :
  Map_get n (Map_set k v m) = if String.eqb k n then Some v else Map_get n m.
Proof.
  induction m as [|[k0 v0] rest IH]; simpl.
  - destruct (String.eqb_spec k n); reflexivity.
  - destruct (String.eqb_spec k0 k) as [->|Hk]; simpl.
    + destruct (String.eqb_spec k n); reflexivity.
    + destruct (String.eqb_spec k0 n) as [->|Hn].
      * destruct (String.eqb_spec k n); [congruence|reflexivity].
      * exact IH.
Qed.

Lemma Map_has_false_get (name : string) (m : LogMap) :
  Map_has name m = false -> Map_get name m = None.
Proof.
  unfold Map_has. destruct (Map_get name m); [discriminate|reflexivity].
Qed.

(** ** The logging loop *)

Lemma push_all_appends (mname : string) (margs : list value) (m : LogMap) :
  forall w, Forall2 (appended mname margs) m (fst (push_all mname margs m w)).
Proof.
  induction m as [|[k entries] rest IH]; intros w; simpl.
  - constructor.
  - destruct (Date_now w) as [t w1].
    specialize (IH w1).
    destruct (push_all mname margs rest w1) as [rest' w2]; simpl in *.
    constructor; [|exact IH].
    split; [reflexivity|].
    exists (mkLogEntry mname margs t). split; reflexivity.
Qed.

Lemma appended_get (mname : string) (margs : list value) (m m' : LogMap) :
  Forall2 (appended mname margs) m m' ->
  forall name entries,
    Map_get name m = Some entries ->
    exists e, Map_get name m' = Some (entries ++ [e])%list /\
              entry_call e = (mname, margs).
Proof.
  induction 1 as [|[k v] [k' v'] m m' [Hk [e [Hv He]]] _ IH];
    intros name entries Hget; simpl in *; [discriminate|].
  subst k'. destruct (String.eqb k name).
  - injection Hget as <-. exists e. split; [now rewrite Hv|exact He].
  - now apply IH.
Qed.

Lemma appended_get_None (mname : string) (margs : list value) (m m' : LogMap) :
  Forall2 (appended mname margs) m m' ->
  forall name, Map_get name m = None -> Map_get name m' = None.
Proof.
  induction 1 as [|[k v] [k' v'] m m' [Hk _] _ IH];
    intros name Hget; simpl in *; [reflexivity|].
  subst k'. destruct (String.eqb k name); [discriminate|now apply IH].
Qed.

Lemma appended_keys (mname : string) (margs : list value) (m m' : LogMap) :
  Forall2 (appended mname margs) m m' -> Map_keys m' = Map_keys m.
Proof.
  induction 1 as [|x y m m' [Hk _] _ IH]; simpl; [reflexivity|].
  now rewrite Hk, IH.
Qed.

Lemma appended_get_both (mname : string) (margs : list value) (m m' : LogMap)
  (a b : string) (ea eb : list LogEntry) :
  Forall2 (appended mname margs) m m' ->
  Map_get a m = Some ea ->
  Map_get b m = Some eb ->
  exists ra rb,
    Map_get a m' = Some (ea ++ [ra])%list /\
    Map_get b m' = Some (eb ++ [rb])%list /\
    entry_call ra = (mname, margs) /\
    entry_call rb = (mname, margs).
Proof.
  intros Happ Ha Hb.
  destruct (appended_get _ _ _ _ Happ _ _ Ha) as [ra [Hra Hca]].
  destruct (appended_get _ _ _ _ Happ _ _ Hb) as [rb [Hrb Hcb]].
  exists ra, rb. repeat split; assumption.
Qed.

(** ** How each method runs *)

Lemma log_run (mname : string) (margs : list value) (this : Fsx) (w : World) :
  log mname margs this w =
  (inl tt,
   with_logs this (fst (push_all mname margs (logs this) w)),
   snd (push_all mname margs (logs this) w)).
Proof.
  unfold log. destruct (push_all mname margs (logs this) w); reflexivity.
Qed.

Lemma callImplMethod_run (mname : string) (margs : list value)
  (this : Fsx) (w : World) :
  callImplMethod mname margs this w =
  let logged := log mname margs this w in
  match get_member (impl this) mname with
  | Function f =>
      let answer := f (impl this) margs (world_of logged) in
      (fst answer, state_of logged, snd answer)
  | Data _ => (inr (new_NoSuchMethodError mname), state_of logged, world_of logged)
  end.
Proof.
  unfold callImplMethod, bind. rewrite log_run. cbn.
  unfold assertImplMethod, call_member, bind, read. cbn.
  destruct (get_member (impl this) mname) as [v|f] eqn:Hm; cbn;
    [reflexivity|].
  rewrite Hm. destruct (f (impl this) margs _); reflexivity.
Qed.

Lemma invoke_callImplMethod (c : DataCall) :
  invoke c = callImplMethod (call_name c) (call_args c).
Proof. destruct c; reflexivity. Qed.

Lemma data_methods_dispatch (c : DataCall) :
  Fsx_dispatches (call_name c) = true.
Proof. destruct c; reflexivity. Qed.

Lemma setImpl_run (i : ref) (this : Fsx) (w : World) :
  setImpl i this w =
  let logged := log "implSet" [VObject i] this w in
  if Nat.eqb (impl this) (baseImpl this)
  then (inl tt, with_impl (state_of logged) i, world_of logged)
  else (inr new_ImplAreadySetError, state_of logged, world_of logged).
Proof.
  unfold setImpl, bind. rewrite log_run. cbn.
  unfold read. cbn.
  destruct (Nat.eqb (impl this) (baseImpl this)); reflexivity.
Qed.

Lemma resetImpl_run (this : Fsx) (w : World) :
  resetImpl this w =
  let logged := log "implReset" [] this w in
  (inl tt, with_impl (state_of logged) (baseImpl this), world_of logged).
Proof.
  unfold resetImpl, bind. rewrite log_run. reflexivity.
Qed.

Lemma logStart_run (name : value) (this : Fsx) (w : World) :
  logStart name this w =
  match name with
  | VString (String a s) =>
      if Map_has (String a s) (logs this)
      then (inr (Error (log_exists_message (String a s))), this, w)
      else (inl tt, with_logs this (Map_set (String a s) [] (logs this)), w)
  | _ => (inr (TypeError "Log name must be a non-empty string."), this, w)
  end.
Proof.
  destruct name as [| |b|n|s|r];
    try (unfold logStart; cbn [typeof_is_string negb];
         rewrite orb_true_r; reflexivity).
  destruct s as [|a s]; [reflexivity|].
  unfold logStart, bind, read, update, throw. cbn.
  destruct (Map_has (String a s) (logs this)); reflexivity.
Qed.

Lemma logStart_opens (name : string) (this : Fsx) (w : World) :
  name <> EmptyString ->
  Map_has name (logs this) = false ->
  logStart (VString name) this w =
  (inl tt, with_logs this (Map_set name [] (logs this)), w).
Proof.
  intros Hname Hfresh. destruct name as [|a name]; [contradiction|].
  rewrite logStart_run, Hfresh. reflexivity.
Qed.

Lemma logStart_failure (name : value) (this : Fsx) (w : World) (e : exn) :
  result_of (logStart name this w) = inr e ->
  logStart name this w = (inr e, this, w).
Proof.
  rewrite logStart_run.
  destruct name as [| |b|n|s|r]; try (intros [= <-]; reflexivity).
  destruct s as [|a s]; [intros [= <-]; reflexivity|].
  destruct (Map_has (String a s) (logs this));
    [intros [= <-]; reflexivity|discriminate].
Qed.

Lemma logStart_logs (name : value) (this : Fsx) (w : World) (n : string)
  (entries : list LogEntry) :
  Map_get n (logs this) = Some entries ->
  Map_get n (logs (state_of (logStart name this w))) = Some entries.
Proof.
  intros Hget. rewrite logStart_run.
  destruct name as [| |b|k|s|r]; try exact Hget.
  destruct s as [|a s]; [exact Hget|].
  destruct (Map_has (String a s) (logs this)) eqn:Hhas; [exact Hget|].
  cbn. rewrite Map_get_set.
  destruct (String.eqb_spec (String a s) n) as [<-|_]; [|exact Hget].
  apply Map_has_false_get in Hhas. congruence.
Qed.

Lemma logEnd_open (name : string) (this : Fsx) (w : World)
  (entries : list LogEntry) :
  Map_get name (logs this) = Some entries ->
  logEnd name this w =
  (inl entries, with_logs this (Map_delete name (logs this)), w).
Proof.
  intros Hget. unfold logEnd, bind, read, update, ret. cbn.
  rewrite Hget. reflexivity.
Qed.

Lemma logEnd_unknown (name : string) (this : Fsx) (w : World) :
  Map_get name (logs this) = None ->
  logEnd name this w = (inr (Error (log_missing_message name)), this, w).
Proof.
  intros Hget. unfold logEnd, bind, read, throw. cbn.
  rewrite Hget. reflexivity.
Qed.

(** ** What a logged call does to one open log *)

Lemma log_appends (mname : string) (margs : list value) (this : Fsx) (w : World) :
  Forall2 (appended mname margs) (logs this)
          (logs (state_of (log mname margs this w))).
Proof. rewrite log_run. apply push_all_appends. Qed.

Lemma invoke_logs (c : DataCall) (this : Fsx) (w : World) :
  state_of (invoke c this w) =
  state_of (log (call_name c) (call_args c) this w).
Proof.
  rewrite invoke_callImplMethod, callImplMethod_run. cbn zeta.
  destruct (get_member (impl this) (call_name c)); reflexivity.
Qed.

Lemma invoke_get (c : DataCall) (this : Fsx) (w : World) (name : string)
  (entries : list LogEntry) :
  Map_get name (logs this) = Some entries ->
  exists e,
    Map_get name (logs (state_of (invoke c this w))) = Some (entries ++ [e])%list /\
    entry_call e = recorded c.
Proof.
  intros Hget. rewrite invoke_logs.
  exact (appended_get _ _ _ _ (log_appends _ _ this w) _ _ Hget).
Qed.

Lemma invoke_get_None (c : DataCall) (this : Fsx) (w : World) (name : string) :
  Map_get name (logs this) = None ->
  Map_get name (logs (state_of (invoke c this w))) = None.
Proof.
  intros Hget. rewrite invoke_logs.
  exact (appended_get_None _ _ _ _ (log_appends _ _ this w) _ Hget).
Qed.

Lemma run_calls_get (cs : list DataCall) :
  forall (this : Fsx) (w : World) (name : string) (entries : list LogEntry),
    Map_get name (logs this) = Some entries ->
    exists es,
      Map_get name (logs (fst (run_calls cs this w))) = Some (entries ++ es)%list /\
      map entry_call es = map recorded cs.
Proof.
  induction cs as [|c rest IH]; intros this w name entries Hget; cbn.
  - exists []. now rewrite app_nil_r.
  - destruct (invoke_get c this w name entries Hget) as [e [He Hc]].
    destruct (IH _ (world_of (invoke c this w)) _ _ He) as [es [Hes Hm]].
    exists (e :: es). split.
    + rewrite Hes. now rewrite <- app_assoc.
    + cbn. now rewrite Hc, Hm.
Qed.

Lemma setImpl_logs (i : ref) (this : Fsx) (w : World) :
  logs (state_of (setImpl i this w)) =
  logs (state_of (log "implSet" [VObject i] this w)).
Proof.
  rewrite setImpl_run. cbn zeta.
  destruct (Nat.eqb (impl this) (baseImpl this)); reflexivity.
Qed.

Lemma resetImpl_logs (this : Fsx) (w : World) :
  logs (state_of (resetImpl this w)) =
  logs (state_of (log "implReset" [] this w)).
Proof. rewrite resetImpl_run. reflexivity. Qed.

Lemma logEnd_other (name other : string) (this : Fsx) (w : World) :
  other <> name ->
  Map_get name (logs (state_of (logEnd other this w))) = Map_get name (logs this).
Proof.
  intros Hne. destruct (Map_get other (logs this)) as [es|] eqn:Hget.
  - rewrite (logEnd_open _ _ _ _ Hget). cbn. now apply Map_get_delete_other.
  - rewrite (logEnd_unknown _ _ _ Hget). reflexivity.
Qed.

(** ** Dispatch to the active implementation *)

(** Dispatch of a call that gives each declared parameter its argument:
    when the active implementation has a callable member named after the
    data method, the facade calls that member with the implementation as
    [this] and exactly these arguments, in the world left by the logging;
    what the member returns or throws is the facade's own outcome, the
    world is the one the member left, and the active implementation is not
    changed. *)
Theorem facade_forwards_to_impl (c : DataCall) (this : Fsx) (w : World)
  (f : Method World) :
  get_member (impl this) (call_name c) = Function f ->
  let logged := log (call_name c) (call_args c) this w in
  let answer := f (impl this) (call_args c) (world_of logged) in
  invoke c this w = (fst answer, state_of logged, snd answer) /\
  impl (state_of (invoke c this w)) = impl this.
Proof.
  intros Hf. cbn zeta.
  rewrite invoke_callImplMethod, callImplMethod_run, Hf. cbn zeta.
  split; [reflexivity|].
  rewrite log_run. reflexivity.
Qed.


(** C3. Evaluation of the class at the operation [bytes] of the
    implementation interface: the class has no member of that name, and of
    the fifteen operations of the interface only [text], [json],
    [arrayBuffer] and [write] have a dispatching public method; the five
    control methods are all present. *)
Theorem facade_surface_lacks_bytes :
  In "bytes" Impl_operations /\
  Fsx_member "bytes" = None /\
  filter Fsx_dispatches Impl_operations = ["text"; "json"; "arrayBuffer"; "write"] /\
  map Fsx_member ["isBaseImpl"; "setImpl"; "resetImpl"; "logStart"; "logEnd"] =
  [Some M_isBaseImpl; Some M_setImpl; Some M_resetImpl; Some M_logStart; Some M_logEnd].
Proof.
  split; [cbn; tauto|]. repeat split.
Qed.

(** ** Swapping the implementation *)

(** C4 (amended). After a [setImpl] that succeeded with an implementation
    other than the base one, a second [setImpl] with no [resetImpl] in
    between fails with [ImplAreadySetError] and the first implementation is
    still the active one. *)
Theorem second_setImpl_refused_after_swap (this : Fsx) (w : World)
  (first second : ref) :
  first <> baseImpl this -> second_setImpl_refused this w first second.
Proof.
  intros Hne. unfold second_setImpl_refused. cbn zeta.
  rewrite (setImpl_run first).  cbn zeta.
  destruct (Nat.eqb (impl this) (baseImpl this)); [|discriminate].
  intros _. rewrite setImpl_run. cbn zeta.
  rewrite !log_run. cbn.
  apply Nat.eqb_neq in Hne. rewrite Hne. split; reflexivity.
Qed.

(** C5 (amended). [isBaseImpl()] answers true on a new facade and after
    every [resetImpl()]; after a [setImpl(impl)] that did not throw it
    answers false whenever [impl] is not the base implementation itself. *)
Theorem isBaseImpl_after_control_calls (this : Fsx) (w : World) (i : ref) :
  result_of (isBaseImpl (new_Fsx i) w) = inl true /\
  (let r := resetImpl this w in
   result_of r = inl tt /\
   result_of (isBaseImpl (state_of r) (world_of r)) = inl true) /\
  (let r := setImpl i this w in
   result_of r = inl tt ->
   i <> baseImpl this ->
   result_of (isBaseImpl (state_of r) (world_of r)) = inl false).
Proof.
  split; [|split].
  - unfold isBaseImpl, read, result_of. cbn. now rewrite Nat.eqb_refl.
  - cbn zeta. rewrite resetImpl_run, log_run.
    unfold isBaseImpl, read, result_of. cbn. now rewrite Nat.eqb_refl.
  - cbn zeta. rewrite setImpl_run, log_run. cbn zeta.
    destruct (Nat.eqb (impl this) (baseImpl this)); [|discriminate].
    intros _ Hne. unfold isBaseImpl, read, result_of. cbn.
    apply Nat.eqb_neq in Hne. now rewrite Hne.
Qed.

(** ** Logging *)

(** C6. A data call first runs [#log] with its own name and arguments, which
    cannot fail and pushes one entry for the call at the end of every open
    log; only then, from the state and world so obtained, come the check of
    the member and the backend call; and whatever their outcome, the facade
    is left in the state the logging produced. *)
Theorem data_call_recorded_before_dispatch (c : DataCall) (this : Fsx) (w : World) :
  let logged := log (call_name c) (call_args c) this w in
  let after := invoke c this w in
  result_of logged = inl tt /\
  Forall2 (appended (call_name c) (call_args c))
          (logs this) (logs (state_of logged)) /\
  after = bind (assertImplMethod (call_name c))
               (fun _ => call_member (call_name c) (call_args c))
               (state_of logged) (world_of logged) /\
  state_of after = state_of logged.
Proof.
  cbn zeta. repeat split.
  - rewrite log_run. reflexivity.
  - apply log_appends.
  - rewrite invoke_callImplMethod. unfold callImplMethod, bind.
    rewrite log_run. reflexivity.
  - apply invoke_logs.
Qed.

(** C7 (amended). A [setImpl] that fails with [ImplAreadySetError] leaves
    the active and the base implementation and the names of the open logs
    as they were, and has pushed one [implSet] entry, with the refused
    implementation as its argument, at the end of every open log (so with
    no log open the state is untouched); a [logStart] that fails, for
    whatever reason, leaves the state and the world exactly as they were. *)
Theorem failed_control_call_effect (this : Fsx) (w : World) :
  (forall i : ref,
      let r := setImpl i this w in
      result_of r = inr new_ImplAreadySetError ->
      impl (state_of r) = impl this /\
      baseImpl (state_of r) = baseImpl this /\
      Map_keys (logs (state_of r)) = Map_keys (logs this) /\
      Forall2 (appended "implSet" [VObject i]) (logs this) (logs (state_of r)) /\
      (logs this = [] -> state_of r = this)) /\
  (forall (name : value) (e : exn),
      let r := logStart name this w in
      result_of r = inr e -> state_of r = this /\ world_of r = w).
Proof.
  split.
  - intros i. cbn zeta. rewrite setImpl_run, log_run. cbn zeta.
    destruct (Nat.eqb (impl this) (baseImpl this)); [discriminate|].
    intros _. cbn.
    pose proof (push_all_appends "implSet" [VObject i] (logs this) w) as Happ.
    repeat split.
    + exact (appended_keys _ _ _ _ Happ).
    + exact Happ.
    + intros Hnil. destruct this as [b a l]. cbn in *. subst l. reflexivity.
  - intros name e. cbn zeta. intros Hres.
    rewrite (logStart_failure _ _ _ _ Hres). split; reflexivity.
Qed.

(** The session behind C8, for any number of data calls: a log opened by
    [logStart] and ended by [logEnd] yields one entry per call made in
    between, in the order of the calls. *)
Lemma logged_session (name : string) (cs : list DataCall) (this : Fsx) (w : World) :
  name <> EmptyString ->
  Map_has name (logs this) = false ->
  let r0 := logStart (VString name) this w in
  let s := run_calls cs (state_of r0) (world_of r0) in
  let r := logEnd name (fst s) (snd s) in
  result_of r0 = inl tt /\
  (exists es, result_of r = inl es /\ map entry_call es = map recorded cs) /\
  Map_has name (logs (state_of r)) = false.
Proof.
  intros Hname Hfresh. cbn zeta.
  rewrite (logStart_opens name this w Hname Hfresh).
  cbn [result_of state_of world_of fst snd].
  set (st0 := with_logs this (Map_set name [] (logs this))).
  assert (Hopen : Map_get name (logs st0) = Some []).
  { subst st0. cbn. rewrite Map_get_set. now rewrite String.eqb_refl. }
  destruct (run_calls_get cs st0 w name [] Hopen) as [es [Hes Hm]].
  cbn [app] in Hes.
  rewrite (logEnd_open _ _ _ _ Hes). cbn.
  split; [reflexivity|]. split.
  - exists es. split; [reflexivity|exact Hm].
  - unfold Map_has. now rewrite Map_get_delete_same.
Qed.

(** C8. After [logStart(name)], two data calls and [logEnd(name)], the
    [logEnd] returns exactly two entries, the first for the first call and
    the second for the second call, each with the call's method name and
    arguments; with any list of data calls in between it returns one entry
    per call in the order of the calls; and on any open log, [logEnd]
    returns the entries the log holds and removes the log from the map. *)
Theorem logEnd_returns_calls_in_order (name : string) (c1 c2 : DataCall)
  (cs : list DataCall) (this : Fsx) (w : World) :
  name <> EmptyString ->
  Map_has name (logs this) = false ->
  let r0 := logStart (VString name) this w in
  (let r1 := invoke c1 (state_of r0) (world_of r0) in
   let r2 := invoke c2 (state_of r1) (world_of r1) in
   let r := logEnd name (state_of r2) (world_of r2) in
   exists e1 e2,
     result_of r = inl [e1; e2] /\
     entry_call e1 = (call_name c1, call_args c1) /\
     entry_call e2 = (call_name c2, call_args c2)) /\
  (let s := run_calls cs (state_of r0) (world_of r0) in
   let r := logEnd name (fst s) (snd s) in
   exists es,
     result_of r = inl es /\
     map entry_call es = map recorded cs /\
     Map_has name (logs (state_of r)) = false) /\
  (forall (st : Fsx) (w' : World) (entries : list LogEntry),
      Map_get name (logs st) = Some entries ->
      let r := logEnd name st w' in
      result_of r = inl entries /\
      logs (state_of r) = Map_delete name (logs st) /\
      Map_has name (logs (state_of r)) = false).
Proof.
  intros Hname Hfresh. cbn zeta. split; [|split].
  - destruct (logged_session name [c1; c2] this w Hname Hfresh)
      as [_ [[es [Hres Hm]] _]].
    cbn [run_calls fst snd] in Hres.
    destruct es as [|e1 [|e2 [|e3 es]]]; try discriminate Hm.
    exists e1, e2. split; [exact Hres|].
    cbn [map] in Hm. injection Hm as Hn1 Ha1 Hn2 Ha2.
    unfold entry_call. now rewrite Hn1, Ha1, Hn2, Ha2.
  - destruct (logged_session name cs this w Hname Hfresh)
      as [_ [[es [Hres Hm]] Hgone]].
    exists es. repeat split; assumption.
  - intros st w' entries Hget. cbn zeta.
    rewrite (logEnd_open _ _ _ _ Hget). cbn.
    repeat split. unfold Map_has. now rewrite Map_get_delete_same.
Qed.

(** C9. With two distinct logs [a] and [b] open, every recorded call (a
    data call, [setImpl] or [resetImpl]) pushes its entry at the end of
    both; [logEnd(a)] returns the entries of [a] and leaves [b] open with
    the very entries it had; and a data call made after that still pushes
    its entry at the end of [b], while [a] stays closed. *)
Theorem concurrent_logs_independent (a b : string) (ea eb : list LogEntry)
  (c : DataCall) (i : ref) (this : Fsx) (w : World) :
  a <> b ->
  Map_get a (logs this) = Some ea ->
  Map_get b (logs this) = Some eb ->
  (let r := invoke c this w in
   exists ra rb,
     Map_get a (logs (state_of r)) = Some (ea ++ [ra])%list /\
     Map_get b (logs (state_of r)) = Some (eb ++ [rb])%list /\
     entry_call ra = (call_name c, call_args c) /\
     entry_call rb = (call_name c, call_args c)) /\
  (let r := setImpl i this w in
   exists ra rb,
     Map_get a (logs (state_of r)) = Some (ea ++ [ra])%list /\
     Map_get b (logs (state_of r)) = Some (eb ++ [rb])%list /\
     entry_call ra = ("implSet", [VObject i]) /\
     entry_call rb = ("implSet", [VObject i])) /\
  (let r := resetImpl this w in
   exists ra rb,
     Map_get a (logs (state_of r)) = Some (ea ++ [ra])%list /\
     Map_get b (logs (state_of r)) = Some (eb ++ [rb])%list /\
     entry_call ra = ("implReset", []) /\
     entry_call rb = ("implReset", [])) /\
  (let r := logEnd a this w in
   result_of r = inl ea /\
   Map_get b (logs (state_of r)) = Some eb /\
   let r' := invoke c (state_of r) (world_of r) in
   exists rb,
     Map_get b (logs (state_of r')) = Some (eb ++ [rb])%list /\
     entry_call rb = (call_name c, call_args c) /\
     Map_get a (logs (state_of r')) = None).
Proof.
  intros Hab Ha Hb. cbn zeta. split; [|split; [|split]].
  - rewrite invoke_logs.
    exact (appended_get_both _ _ _ _ _ _ _ _ (log_appends _ _ this w) Ha Hb).
  - rewrite setImpl_logs.
    exact (appended_get_both _ _ _ _ _ _ _ _ (log_appends _ _ this w) Ha Hb).
  - rewrite resetImpl_logs.
    exact (appended_get_both _ _ _ _ _ _ _ _ (log_appends _ _ this w) Ha Hb).
  - rewrite (logEnd_open _ _ _ _ Ha).
    cbn [result_of state_of world_of fst snd].
    set (st := with_logs this (Map_delete a (logs this))).
    assert (Hb' : Map_get b (logs st) = Some eb).
    { subst st. cbn. now rewrite Map_get_delete_other. }
    assert (Ha' : Map_get a (logs st) = None).
    { subst st. cbn. apply Map_get_delete_same. }
    split; [reflexivity|]. split; [exact Hb'|].
    destruct (invoke_get c st w b eb Hb') as [rb [Hrb Hcb]].
    exists rb. repeat split; try assumption.
    now apply invoke_get_None.
Qed.

(** C10. In any open log, [setImpl(impl)] pushes an entry named [implSet]
    whose only argument is [impl], and [resetImpl()] pushes an entry named
    [implReset] with no argument; [logStart], whether it succeeds or fails,
    and [logEnd] of another log leave the entries of the log as they are,
    and [logEnd] of the log itself returns just those entries. *)
Theorem control_calls_in_the_log (name : string) (entries : list LogEntry)
  (this : Fsx) (w : World) :
  Map_get name (logs this) = Some entries ->
  (forall i : ref,
      exists e,
        Map_get name (logs (state_of (setImpl i this w))) =
          Some (entries ++ [e])%list /\
        methodName e = "implSet" /\ args e = [VObject i]) /\
  (exists e,
      Map_get name (logs (state_of (resetImpl this w))) =
        Some (entries ++ [e])%list /\
      methodName e = "implReset" /\ args e = []) /\
  (forall v : value,
      Map_get name (logs (state_of (logStart v this w))) = Some entries) /\
  (forall other : string,
      other <> name ->
      Map_get name (logs (state_of (logEnd other this w))) = Some entries) /\
  result_of (logEnd name this w) = inl entries /\
  (forall fresh : string,
      fresh <> EmptyString ->
      Map_has fresh (logs this) = false ->
      Map_get fresh (logs (state_of (logStart (VString fresh) this w))) = Some []).
Proof.
  intros Hget. repeat split.
  - intros i. rewrite setImpl_logs.
    destruct (appended_get _ _ _ _ (log_appends "implSet" [VObject i] this w)
                _ _ Hget) as [e [He Hc]].
    exists e. injection Hc as Hn Ha. repeat split; assumption.
  - rewrite resetImpl_logs.
    destruct (appended_get _ _ _ _ (log_appends "implReset" [] this w)
                _ _ Hget) as [e [He Hc]].
    exists e. injection Hc as Hn Ha. repeat split; assumption.
  - intros v. now apply logStart_logs.
  - intros other Hne. now rewrite logEnd_other.
  - now rewrite (logEnd_open _ _ _ _ Hget).
  - intros fresh Hne Hfresh. rewrite (logStart_opens _ _ _ Hne Hfresh).
    cbn. rewrite Map_get_set. now rewrite String.eqb_refl.
Qed.

(** ** More on the map operations *)

Lemma Map_get_None_keys (name : string) (m : LogMap) :
  Map_get name m = None <-> ~ In name (Map_keys m).
Proof.
  induction m as [|[k v] rest IH]; cbn; [tauto|].
  destruct (String.eqb_spec k name) as [->|Hne].
  - split; [discriminate|]. intros H. exfalso. apply H. now left.
  - rewrite IH. tauto.
Qed.

Lemma Map_set_fresh (name : string) (v : list LogEntry) (m : LogMap) :
  Map_get name m = None -> Map_set name v m = (m ++ [(name, v)])%list.
Proof.
  induction m as [|[k v0] rest IH]; cbn; [reflexivity|].
  destruct (String.eqb k name); [discriminate|].
  intros Hget. now rewrite IH.
Qed.

Lemma Map_delete_absent (name : string) (m : LogMap) :
  Map_get name m = None -> Map_delete name m = m.
Proof.
  induction m as [|[k v0] rest IH]; cbn; [reflexivity|].
  destruct (String.eqb k name); [discriminate|].
  intros Hget. cbn. f_equal. now apply IH.
Qed.

Lemma Map_delete_set_fresh (name : string) (v : list LogEntry) (m : LogMap) :
  Map_get name m = None -> Map_delete name (Map_set name v m) = m.
Proof.
  intros Hget. rewrite (Map_set_fresh _ _ _ Hget).
  unfold Map_delete. rewrite filter_app. cbn.
  rewrite String.eqb_refl. cbn. rewrite app_nil_r.
  now apply Map_delete_absent.
Qed.

Lemma Map_keys_delete (name : string) (m : LogMap) :
  Map_keys (Map_delete name m) =
  filter (fun k => negb (String.eqb k name)) (Map_keys m).
Proof.
  unfold Map_keys, Map_delete.
  induction m as [|[k v] rest IH]; cbn; [reflexivity|].
  destruct (String.eqb k name); cbn; [exact IH|now rewrite IH].
Qed.

Lemma with_logs_same (this : Fsx) : with_logs this (logs this) = this.
Proof. destruct this; reflexivity. Qed.

(** ** What one operation does to the fields *)

Lemma log_keys (mname : string) (margs : list value) (this : Fsx) (w : World) :
  Map_keys (logs (state_of (log mname margs this w))) = Map_keys (logs this).
Proof. exact (appended_keys _ _ _ _ (log_appends mname margs this w)). Qed.

Lemma log_impls (mname : string) (margs : list value) (this : Fsx) (w : World) :
  impl (state_of (log mname margs this w)) = impl this /\
  baseImpl (state_of (log mname margs this w)) = baseImpl this.
Proof. rewrite log_run. split; reflexivity. Qed.

(** The logs after an operation: those before it with the operation's
    record pushed on each, or with one fresh non-empty name added last, or
    with one name removed. *)
Lemma step_logs (o : Op) (this : Fsx) (w : World) :
  let m := logs this in
  let m' := logs (fst (step o this w)) in
  (exists mname margs,
      op_record o = [(mname, margs)] /\ Forall2 (appended mname margs) m m') \/
  m' = m \/
  (exists s, s <> EmptyString /\ Map_get s m = None /\ m' = (m ++ [(s, [])])%list) \/
  (exists s, m' = Map_delete s m).
Proof.
  cbn zeta. destruct o as [name|name| |i| |c]; cbn [step fst].
  - right. rewrite logStart_run.
    destruct name as [| |b|n|s|r]; try (left; reflexivity).
    destruct s as [|a s]; [left; reflexivity|].
    destruct (Map_has (String a s) (logs this)) eqn:Hhas; [left; reflexivity|].
    right. left. exists (String a s).
    apply Map_has_false_get in Hhas.
    split; [discriminate|]. split; [exact Hhas|].
    cbn. now apply Map_set_fresh.
  - right. destruct (Map_get name (logs this)) as [es|] eqn:Hget.
    + right. right. exists name. now rewrite (logEnd_open _ _ _ _ Hget).
    + left. now rewrite (logEnd_unknown _ _ _ Hget).
  - right. left. reflexivity.
  - left. exists "implSet", [VObject i]. split; [reflexivity|].
    rewrite setImpl_logs. apply log_appends.
  - left. exists "implReset", []. split; [reflexivity|].
    rewrite resetImpl_logs. apply log_appends.
  - left. exists (call_name c), (call_args c). split; [reflexivity|].
    rewrite invoke_logs. apply log_appends.
Qed.

(** The implementations after an operation. *)
Lemma step_impls (o : Op) (this : Fsx) (w : World) :
  let this' := fst (step o this w) in
  baseImpl this' = baseImpl this /\
  (impl this' = impl this \/ impl this' = baseImpl this \/
   o = OpSetImpl (impl this')).
Proof.
  cbn zeta. destruct o as [name|name| |i| |c]; cbn [step fst].
  - rewrite logStart_run.
    destruct name as [| |b|n|s|r]; try (split; [reflexivity|now left]).
    destruct s as [|a s]; [split; [reflexivity|now left]|].
    destruct (Map_has (String a s) (logs this));
      (split; [reflexivity|now left]).
  - destruct (Map_get name (logs this)) as [es|] eqn:Hget.
    + rewrite (logEnd_open _ _ _ _ Hget). split; [reflexivity|now left].
    + rewrite (logEnd_unknown _ _ _ Hget). split; [reflexivity|now left].
  - split; [reflexivity|now left].
  - rewrite setImpl_run, log_run. cbn zeta.
    destruct (Nat.eqb (impl this) (baseImpl this)); cbn.
    + split; [reflexivity|]. right. right. reflexivity.
    + split; [reflexivity|now left].
  - rewrite resetImpl_run, log_run. cbn.
    split; [reflexivity|]. right. now left.
  - rewrite invoke_logs, log_run. cbn. split; [reflexivity|now left].
Qed.

(** ** Invariants of the states a caller can reach *)

Lemma step_names_well_formed (o : Op) (this : Fsx) (w : World) :
  names_well_formed this -> names_well_formed (fst (step o this w)).
Proof.
  unfold names_well_formed. intros [Hnd Hne].
  destruct (step_logs o this w)
    as [(mname & margs & _ & Happ)|[Heq|[(s & Hs & Hget & Heq)|(s & Heq)]]].
  - rewrite (appended_keys _ _ _ _ Happ). now split.
  - rewrite Heq. now split.
  - rewrite Heq. unfold Map_keys in *. rewrite map_app. cbn. split.
    + apply NoDup_app; [exact Hnd|repeat constructor; intros []|].
      intros k Hk [Hks|[]]. subst k.
      apply (Map_get_None_keys s (logs this)) in Hget. exact (Hget Hk).
    + apply Forall_app. split; [exact Hne|now repeat constructor].
  - rewrite Heq, Map_keys_delete. split.
    + now apply NoDup_filter.
    + rewrite Forall_forall in *. intros k Hk.
      apply filter_In in Hk. now apply Hne.
Qed.

(** X1. Whatever operations a caller performs on a new facade, succeeding
    or failing, the open logs always have pairwise distinct names and no log
    is ever named by the empty string. *)
Theorem open_log_names_distinct (b : ref) (os : list Op) (w : World) :
  names_well_formed (fst (run_ops os (new_Fsx b) w)).
Proof.
  assert (Hinit : names_well_formed (new_Fsx b)).
  { split; constructor. }
  revert Hinit. generalize (new_Fsx b). revert w.
  induction os as [|o rest IH]; intros w this Hwf; cbn; [exact Hwf|].
  apply IH. now apply step_names_well_formed.
Qed.

Lemma run_ops_impls (os : list Op) :
  forall (this : Fsx) (w : World),
    let this' := fst (run_ops os this w) in
    baseImpl this' = baseImpl this /\
    (impl this' = impl this \/ impl this' = baseImpl this \/
     In (impl this') (setImpl_arguments os)).
Proof.
  induction os as [|o rest IH]; intros this w; cbn zeta; cbn [run_ops].
  - split; [reflexivity|now left].
  - destruct (IH (fst (step o this w)) (snd (step o this w))) as [Hb Hi].
    destruct (step_impls o this w) as [Hb' Hi'].
    split; [congruence|].
    unfold setImpl_arguments. cbn [flat_map].
    destruct Hi as [Hi|[Hi|Hi]].
    + rewrite Hi. destruct Hi' as [Hi'|[Hi'|Hi']].
      * left. exact Hi'.
      * right. left. exact Hi'.
      * right. right. apply in_or_app. left.
        destruct o; try discriminate Hi'. injection Hi' as Hi'.
        left. exact Hi'.
    + right. left. congruence.
    + right. right. apply in_or_app. right. exact Hi.
Qed.

(** X2. Over any sequence of operations on a new facade the base
    implementation stays the one given to the constructor, and the active
    implementation is always either that one or one the sequence handed to
    [setImpl]. *)
Theorem implementations_reachable (b : ref) (os : list Op) (w : World) :
  let this := fst (run_ops os (new_Fsx b) w) in
  baseImpl this = b /\
  (impl this = b \/ In (impl this) (setImpl_arguments os)).
Proof.
  cbn zeta. destruct (run_ops_impls os (new_Fsx b) w) as [Hb Hi].
  split; [exact Hb|]. cbn in Hi. tauto.
Qed.

Lemma appended_recordable (mname : string) (margs : list value) (m m' : LogMap) :
  In (mname, List.length margs) recordable_shapes ->
  Forall2 (appended mname margs) m m' ->
  Forall (fun kv => Forall recordable (snd kv)) m ->
  Forall (fun kv => Forall recordable (snd kv)) m'.
Proof.
  intros Hshape. induction 1 as [|x y m m' [_ [e [Hy He]]] _ IH];
    intros Hall; [constructor|].
  inversion Hall as [|x0 m0 Hx Hm]; subst. constructor; [|now apply IH].
  rewrite Hy. apply Forall_app. split; [exact Hx|].
  constructor; [|constructor].
  unfold recordable. injection He as -> ->. exact Hshape.
Qed.

Lemma op_record_recordable (o : Op) (mname : string) (margs : list value) :
  op_record o = [(mname, margs)] ->
  In (mname, List.length margs) recordable_shapes.
Proof.
  destruct o as [name|name| |i| |c]; cbn; try discriminate;
    intros [= <- <-]; cbn; try tauto.
  destruct c; cbn; tauto.
Qed.

Lemma step_entries_recordable (o : Op) (this : Fsx) (w : World) :
  entries_recordable this -> entries_recordable (fst (step o this w)).
Proof.
  unfold entries_recordable. intros Hall.
  destruct (step_logs o this w)
    as [(mname & margs & Hrec & Happ)|[Heq|[(s & Hs & Hget & Heq)|(s & Heq)]]].
  - exact (appended_recordable _ _ _ _ (op_record_recordable _ _ _ Hrec) Happ Hall).
  - now rewrite Heq.
  - rewrite Heq. apply Forall_app. split; [exact Hall|].
    repeat constructor.
  - rewrite Heq. unfold Map_delete. rewrite Forall_forall in *.
    intros kv Hkv. apply filter_In in Hkv. now apply Hall.
Qed.

(** X3. Whatever operations a caller performs on a new facade, every entry
    of every open log is named [implSet], [implReset], [text], [json],
    [arrayBuffer] or [write] and carries as many arguments as that method
    passes on (one, none, one, one, one, two): [logStart], [logEnd] and
    [isBaseImpl] never leave an entry. *)
Theorem log_entries_recordable (b : ref) (os : list Op) (w : World) :
  entries_recordable (fst (run_ops os (new_Fsx b) w)).
Proof.
  assert (Hinit : entries_recordable (new_Fsx b)) by constructor.
  revert Hinit. generalize (new_Fsx b). revert w.
  induction os as [|o rest IH]; intros w this Hall; cbn; [exact Hall|].
  apply IH. now apply step_entries_recordable.
Qed.

(** ** Opening and ending logs *)

(** X4. [logStart(name)] succeeds exactly when [name] is a non-empty string
    that names no open log, and it then adds an empty log after the ones
    already open; on a name that is already open it fails with [Error] and
    the "already exists" message; on the empty string and on any value that
    is not a string it fails with [TypeError]; every failure leaves the
    state and the world untouched. *)
Theorem logStart_outcomes (name : value) (this : Fsx) (w : World) :
  let r := logStart name this w in
  (result_of r = inl tt <->
   exists s, name = VString s /\ s <> EmptyString /\
             Map_has s (logs this) = false) /\
  (forall s, name = VString s -> s <> EmptyString ->
             Map_has s (logs this) = false ->
             r = (inl tt, with_logs this (logs this ++ [(s, [])])%list, w)) /\
  (forall s, name = VString s -> s <> EmptyString ->
             Map_has s (logs this) = true ->
             r = (inr (Error (log_exists_message s)), this, w)) /\
  (typeof_is_string name = false \/ name = VString EmptyString ->
   r = (inr (TypeError "Log name must be a non-empty string."), this, w)).
Proof.
  cbn zeta. rewrite logStart_run. repeat split.
  - destruct name as [| |b|n|s|r]; try discriminate.
    destruct s as [|a s]; [discriminate|].
    destruct (Map_has (String a s) (logs this)) eqn:Hhas; [discriminate|].
    intros _. exists (String a s). repeat split; [discriminate|exact Hhas].
  - intros (s & -> & Hs & Hhas). destruct s as [|a s]; [contradiction|].
    now rewrite Hhas.
  - intros s -> Hs Hhas. destruct s as [|a s]; [contradiction|].
    rewrite Hhas. apply Map_has_false_get in Hhas.
    now rewrite (Map_set_fresh _ _ _ Hhas).
  - intros s -> Hs Hhas. destruct s as [|a s]; [contradiction|].
    now rewrite Hhas.
  - intros [Hty| ->]; [|reflexivity].
    destruct name; try reflexivity; discriminate Hty.
Qed.

(** X5. [logEnd(name)] returns a list exactly when [name] is open, and the
    list is the one the log holds; otherwise it fails with [Error] and the
    "does not exist" message and leaves the state and the world untouched.
    Either way [name] is not open afterwards and every other log keeps its
    entries. *)
Theorem logEnd_outcomes (name : string) (this : Fsx) (w : World) :
  let r := logEnd name this w in
  (forall entries,
      result_of r = inl entries <-> Map_get name (logs this) = Some entries) /\
  (Map_has name (logs this) = false ->
   r = (inr (Error (log_missing_message name)), this, w)) /\
  Map_get name (logs (state_of r)) = None /\
  (forall other, other <> name ->
      Map_get other (logs (state_of r)) = Map_get other (logs this)).
Proof.
  cbn zeta. repeat split.
  - destruct (Map_get name (logs this)) as [es|] eqn:Hget.
    + rewrite (logEnd_open _ _ _ _ Hget). cbn. congruence.
    + rewrite (logEnd_unknown _ _ _ Hget). discriminate.
  - intros Hget. destruct (Map_get name (logs this)) as [es|] eqn:Hopen;
      [|discriminate Hget].
    rewrite (logEnd_open _ _ _ _ Hopen). cbn. congruence.
  - intros Hhas. apply Map_has_false_get in Hhas.
    now apply logEnd_unknown.
  - destruct (Map_get name (logs this)) as [es|] eqn:Hget.
    + rewrite (logEnd_open _ _ _ _ Hget). cbn. apply Map_get_delete_same.
    + now rewrite (logEnd_unknown _ _ _ Hget).
  - intros other Hne. apply logEnd_other. congruence.
Qed.

(** X6. Opening a log and ending it at once gives back an empty list and
    the facade exactly as it was before the [logStart]: same logs in the
    same order, same implementations, same world. *)
Theorem logStart_logEnd_round_trip (name : string) (this : Fsx) (w : World) :
  name <> EmptyString ->
  Map_has name (logs this) = false ->
  let r0 := logStart (VString name) this w in
  logEnd name (state_of r0) (world_of r0) = (inl [], this, w).
Proof.
  intros Hname Hfresh. cbn zeta.
  rewrite (logStart_opens _ _ _ Hname Hfresh).
  cbn [state_of world_of fst snd].
  apply Map_has_false_get in Hfresh.
  assert (Hopen : Map_get name
                    (logs (with_logs this (Map_set name [] (logs this)))) =
                  Some []).
  { cbn. rewrite Map_get_set. now rewrite String.eqb_refl. }
  rewrite (logEnd_open _ _ _ _ Hopen). cbn [logs with_logs].
  rewrite (Map_delete_set_fresh _ _ _ Hfresh).
  f_equal. f_equal. destruct this; reflexivity.
Qed.

(** X12. A log can be ended once: after a [logEnd(name)] that returned, a
    second [logEnd(name)] fails with the "does not exist" error and changes
    nothing, and a [logStart(name)] succeeds and opens the log anew with no
    entry of the old one. *)
Theorem logEnd_once_then_reopen (name : string) (entries : list LogEntry)
  (this : Fsx) (w : World) :
  name <> EmptyString ->
  Map_get name (logs this) = Some entries ->
  let r1 := logEnd name this w in
  let again := logEnd name (state_of r1) (world_of r1) in
  let reopened := logStart (VString name) (state_of r1) (world_of r1) in
  result_of r1 = inl entries /\
  again = (inr (Error (log_missing_message name)), state_of r1, world_of r1) /\
  result_of reopened = inl tt /\
  Map_get name (logs (state_of reopened)) = Some [].
Proof.
  intros Hname Hget. cbn zeta.
  rewrite (logEnd_open _ _ _ _ Hget). cbn [result_of state_of world_of fst snd].
  set (st := with_logs this (Map_delete name (logs this))).
  assert (Hgone : Map_get name (logs st) = None).
  { subst st. cbn. apply Map_get_delete_same. }
  assert (Hhas : Map_has name (logs st) = false).
  { unfold Map_has. now rewrite Hgone. }
  split; [reflexivity|]. split; [now apply logEnd_unknown|].
  rewrite (logStart_opens _ _ _ Hname Hhas). cbn.
  split; [reflexivity|]. rewrite Map_get_set. now rewrite String.eqb_refl.
Qed.

(** ** Swapping and dispatch *)

(** X7. [setImpl(impl)] succeeds exactly when [isBaseImpl()] answers true
    just before it; when it succeeds [impl] is the active implementation,
    and when it does not, the failure is [ImplAreadySetError] and the
    active implementation stays. [isBaseImpl()] itself changes nothing. *)
Theorem setImpl_succeeds_iff_base (i : ref) (this : Fsx) (w : World) :
  let r := setImpl i this w in
  isBaseImpl this w = (inl (Nat.eqb (impl this) (baseImpl this)), this, w) /\
  (result_of r = inl tt <-> result_of (isBaseImpl this w) = inl true) /\
  (result_of r = inl tt -> impl (state_of r) = i) /\
  (result_of r <> inl tt ->
   result_of r = inr new_ImplAreadySetError /\ impl (state_of r) = impl this).
Proof.
  cbn zeta. rewrite setImpl_run, log_run. cbn zeta.
  unfold isBaseImpl, read, result_of. cbn.
  destruct (Nat.eqb (impl this) (baseImpl this)); cbn; repeat split;
    try reflexivity; try discriminate; try congruence.
Qed.

(** X8. [resetImpl()] never fails and makes the base implementation the
    active one whatever was active; a [setImpl(impl)] that follows it always
    succeeds and makes [impl] the active implementation. *)
Theorem resetImpl_reenables_setImpl (i : ref) (this : Fsx) (w : World) :
  let r := resetImpl this w in
  let r' := setImpl i (state_of r) (world_of r) in
  result_of r = inl tt /\
  impl (state_of r) = baseImpl this /\
  result_of r' = inl tt /\
  impl (state_of r') = i /\
  baseImpl (state_of r') = baseImpl this.
Proof.
  cbn zeta. rewrite resetImpl_run, log_run. cbn zeta.
  cbn [result_of state_of world_of fst snd].
  rewrite setImpl_run, log_run. cbn. rewrite Nat.eqb_refl.
  repeat split.
Qed.

(** X9. Dispatch follows the swap: on a facade whose base implementation is
    active, after [setImpl(impl)] a data call is answered by the member of
    [impl], called with [impl] as [this]; after a [resetImpl()] on top of
    that it is answered by the member of the base implementation again. *)
Theorem swap_redirects_dispatch (i : ref) (c : DataCall) (f g : Method World)
  (this : Fsx) (w : World) :
  impl this = baseImpl this ->
  get_member i (call_name c) = Function f ->
  get_member (baseImpl this) (call_name c) = Function g ->
  let r1 := setImpl i this w in
  let r2 := resetImpl (state_of r1) (world_of r1) in
  (let logged := log (call_name c) (call_args c) (state_of r1) (world_of r1) in
   result_of (invoke c (state_of r1) (world_of r1)) =
     fst (f i (call_args c) (world_of logged))) /\
  (let logged := log (call_name c) (call_args c) (state_of r2) (world_of r2) in
   result_of (invoke c (state_of r2) (world_of r2)) =
     fst (g (baseImpl this) (call_args c) (world_of logged))).
Proof.
  intros Hbase Hf Hg. cbn zeta.
  rewrite setImpl_run, log_run. cbn zeta.
  rewrite Hbase, Nat.eqb_refl. cbn [state_of world_of fst snd].
  split.
  - rewrite invoke_callImplMethod, callImplMethod_run. cbn zeta.
    cbn [impl with_impl]. rewrite Hf. reflexivity.
  - rewrite resetImpl_run, log_run. cbn zeta.
    cbn [state_of world_of fst snd].
    rewrite invoke_callImplMethod, callImplMethod_run. cbn zeta.
    cbn [impl baseImpl with_impl with_logs]. rewrite Hg. reflexivity.
Qed.

(** X10. With no log open nothing is recorded and the clock is not read:
    a data call leaves the facade exactly as it was and hands the backend
    the caller's own world (or fails with [NoSuchMethodError] in that
    world), and [setImpl] and [resetImpl] leave the world as it was. *)
Theorem no_open_log_no_record (c : DataCall) (i : ref) (this : Fsx) (w : World) :
  logs this = [] ->
  state_of (invoke c this w) = this /\
  (forall f, get_member (impl this) (call_name c) = Function f ->
             invoke c this w =
             (fst (f (impl this) (call_args c) w), this,
              snd (f (impl this) (call_args c) w))) /\
  (typeof_is_function (get_member (impl this) (call_name c)) = false ->
   invoke c this w = (inr (new_NoSuchMethodError (call_name c)), this, w)) /\
  world_of (setImpl i this w) = w /\
  resetImpl this w = (inl tt, with_impl this (baseImpl this), w).
Proof.
  intros Hnil.
  assert (Hlog : forall mname margs, log mname margs this w = (inl tt, this, w)).
  { intros mname margs. rewrite log_run, Hnil. cbn.
    rewrite <- Hnil. now rewrite with_logs_same. }
  repeat split.
  - rewrite invoke_logs, Hlog. reflexivity.
  - intros f Hf. rewrite invoke_callImplMethod, callImplMethod_run, Hf, Hlog.
    reflexivity.
  - intros Hm. rewrite invoke_callImplMethod, callImplMethod_run, Hlog.
    cbn zeta. destruct (get_member (impl this) (call_name c));
      [reflexivity|discriminate].
  - rewrite setImpl_run, Hlog. cbn zeta.
    destruct (Nat.eqb (impl this) (baseImpl this)); reflexivity.
  - rewrite resetImpl_run, Hlog. reflexivity.
Qed.

(** X11. The calls that are recorded never open or close a log and a data
    call never swaps the implementation: after a data call, succeeding or
    failing, the names of the open logs, the active and the base
    implementation are what they were, and [setImpl] and [resetImpl] keep
    the names of the open logs and the base implementation. *)
Theorem recorded_calls_keep_the_frame (c : DataCall) (i : ref)
  (this : Fsx) (w : World) :
  (let this' := state_of (invoke c this w) in
   Map_keys (logs this') = Map_keys (logs this) /\
   impl this' = impl this /\ baseImpl this' = baseImpl this) /\
  (let this' := state_of (setImpl i this w) in
   Map_keys (logs this') = Map_keys (logs this) /\
   baseImpl this' = baseImpl this) /\
  (let this' := state_of (resetImpl this w) in
   Map_keys (logs this') = Map_keys (logs this) /\
   baseImpl this' = baseImpl this).
Proof.
  cbn zeta. split; [|split].
  - rewrite invoke_logs. split; [apply log_keys|apply log_impls].
  - split.
    + rewrite setImpl_logs. apply log_keys.
    + exact (proj1 (step_impls (OpSetImpl i) this w)).
  - split.
    + rewrite resetImpl_logs. apply log_keys.
    + exact (proj1 (step_impls OpResetImpl this w)).
Qed.

(** ** A log over a whole sequence of operations *)

Lemma step_get (name : string) (o : Op) (this : Fsx) (w : World)
  (entries : list LogEntry) :
  ends_log name o = false ->
  Map_get name (logs this) = Some entries ->
  exists es,
    Map_get name (logs (fst (step o this w))) = Some (entries ++ es)%list /\
    map entry_call es = op_record o.
Proof.
  intros Hend Hget.
  assert (Hsame : forall m, m = Some entries ->
                            exists es, m = Some (entries ++ es)%list /\
                                       map entry_call es = []).
  { intros m ->. exists []. now rewrite app_nil_r. }
  destruct o as [v|n| |i| |c]; cbn [step fst op_record].
  - apply Hsame. now apply logStart_logs.
  - apply Hsame. rewrite logEnd_other; [exact Hget|].
    cbn in Hend. now apply String.eqb_neq.
  - apply Hsame. exact Hget.
  - rewrite setImpl_logs.
    destruct (appended_get _ _ _ _ (log_appends "implSet" [VObject i] this w)
                _ _ Hget) as [e [He Hc]].
    exists [e]. split; [exact He|]. cbn. now rewrite Hc.
  - rewrite resetImpl_logs.
    destruct (appended_get _ _ _ _ (log_appends "implReset" [] this w)
                _ _ Hget) as [e [He Hc]].
    exists [e]. split; [exact He|]. cbn. now rewrite Hc.
  - destruct (invoke_get c this w name entries Hget) as [e [He Hc]].
    exists [e]. split; [exact He|]. cbn. now rewrite Hc.
Qed.

(** X13. An open log only grows, and by exactly what is recorded: over any
    sequence of operations that does not end the log, the entries it held
    stay at its front, unchanged, and behind them come one entry for every
    data call, [setImpl] and [resetImpl] of the sequence, in the order of
    the sequence, each with the method name and arguments of its call;
    [logStart], [isBaseImpl] and the [logEnd] of other logs add nothing. *)
Theorem open_log_accumulates (name : string) (os : list Op) :
  forall (entries : list LogEntry) (this : Fsx) (w : World),
    existsb (ends_log name) os = false ->
    Map_get name (logs this) = Some entries ->
    exists es,
      Map_get name (logs (fst (run_ops os this w))) = Some (entries ++ es)%list /\
      map entry_call es = flat_map op_record os.
Proof.
  induction os as [|o rest IH]; intros entries this w Hends Hget;
    cbn [run_ops flat_map].
  - exists []. now rewrite app_nil_r.
  - cbn in Hends. apply orb_false_elim in Hends as [Ho Hrest].
    destruct (step_get name o this w entries Ho Hget) as [es1 [H1 Hm1]].
    destruct (IH _ (fst (step o this w)) (snd (step o this w)) Hrest H1)
      as [es2 [H2 Hm2]].
    exists (es1 ++ es2)%list. split.
    + rewrite H2. now rewrite app_assoc.
    + rewrite map_app. now rewrite Hm1, Hm2.
Qed.

(** ** Timestamps *)

Lemma push_all_readings (mname : string) (margs : list value) (m : LogMap) :
  forall w,
    map last_timestamp (fst (push_all mname margs m w)) =
      map Some (fst (readings (List.length m) w)) /\
    snd (push_all mname margs m w) = snd (readings (List.length m) w).
Proof.
  induction m as [|[k entries] rest IH]; intros w; cbn; [now split|].
  destruct (Date_now w) as [t w1]. specialize (IH w1).
  destruct (push_all mname margs rest w1) as [rest' w2].
  destruct (readings (List.length rest) w1) as [ts w3].
  cbn in *. destruct IH as [IHt IHw]. split; [|exact IHw].
  f_equal; [|exact IHt].
  unfold last_timestamp. cbn. now rewrite rev_unit.
Qed.

(** X14. A data call reads the clock once for every open log, in the order
    in which the logs were opened, before anything else: the entry it
    pushes on the k-th log carries the k-th reading, and the member check
    and the backend start from the world left by the last reading. *)
Theorem clock_read_once_per_open_log (c : DataCall) (this : Fsx) (w : World) :
  let n := List.length (logs this) in
  map last_timestamp (logs (state_of (invoke c this w))) =
    map Some (fst (readings n w)) /\
  invoke c this w =
    bind (assertImplMethod (call_name c))
         (fun _ => call_member (call_name c) (call_args c))
         (state_of (invoke c this w)) (snd (readings n w)).
Proof.
  cbn zeta.
  destruct (push_all_readings (call_name c) (call_args c) (logs this) w)
    as [Ht Hw].
  rewrite invoke_logs. split.
  - rewrite log_run. exact Ht.
  - rewrite invoke_callImplMethod. unfold callImplMethod, bind.
    rewrite log_run. cbn. now rewrite Hw.
Qed.

(** ** Calls with any list of arguments *)

Lemma bind_call_name (m : DataMethod) (actuals : list value) :
  call_name (bind_call m actuals) = method_name m.
Proof. destruct m; reflexivity. Qed.

Lemma bind_call_args (m : DataMethod) (actuals : list value) :
  call_args (bind_call m actuals) =
  firstn (declared_parameters m)
         (actuals ++ repeat VUndefined (declared_parameters m)).
Proof.
  destruct m; cbn; unfold parameter;
    destruct actuals as [|a [|b rest]]; reflexivity.
Qed.

Lemma bind_call_exact (m : DataMethod) (actuals : list value) :
  List.length actuals = declared_parameters m ->
  call_args (bind_call m actuals) = actuals.
Proof.
  destruct m; cbn; unfold parameter;
    destruct actuals as [|a [|b [|c rest]]]; cbn; intros H;
    try discriminate H; reflexivity.
Qed.

(** C1 (amended). When the active implementation has a callable member
    named after the data method, a call of the method with any list of
    arguments calls that member, with the implementation as [this], with
    exactly the parameters the method declares (one for [text], [json] and
    [arrayBuffer], two for [write]): the caller's arguments in these
    positions, [undefined] where the caller gave none, the arguments beyond
    them dropped; so with exactly the caller's arguments whenever their
    number is the declared one. What the member returns or throws is the
    facade's own outcome, the world is the one the member left, and the
    active implementation is not changed. *)
Theorem facade_forwards_declared_parameters (m : DataMethod)
  (actuals : list value) (this : Fsx) (w : World) (f : Method World) :
  get_member (impl this) (method_name m) = Function f ->
  let passed :=
    firstn (declared_parameters m)
           (actuals ++ repeat VUndefined (declared_parameters m)) in
  let logged := log (method_name m) passed this w in
  let answer := f (impl this) passed (world_of logged) in
  apply_method m actuals this w = (fst answer, state_of logged, snd answer) /\
  impl (state_of (apply_method m actuals this w)) = impl this /\
  (List.length actuals = declared_parameters m -> passed = actuals).
Proof.
  intros Hf. cbn zeta. rewrite <- bind_call_args. unfold apply_method.
  rewrite invoke_callImplMethod, bind_call_name, callImplMethod_run, Hf.
  cbn zeta. split; [reflexivity|]. split.
  - rewrite log_run. reflexivity.
  - apply bind_call_exact.
Qed.

End Facade.

Arguments result_of {World A} r.
Arguments state_of {World A} r.
Arguments world_of {World A} r.

(** ** The model run on the sample environment *)

(** With object 0, which has a [text] method only, as the implementation,
    [text("f")] returns what the method returns and [write("f", "x")] fails
    with [NoSuchMethodError]. *)
Example text_only_impl :
  result_of (text nat sample_now sample_member (VString "f") (new_Fsx 0) 5) =
    inl (VString "base") /\
  result_of (write nat sample_now sample_member (VString "f") (VString "x")
               (new_Fsx 0) 5) =
    inr (NoSuchMethodError
           ("Method " ++ dquote ++ "write" ++ dquote ++ " does not exist on impl.")).
Proof. split; reflexivity. Qed.

(** What a backend throws is what the caller gets: the [write] of object 1
    throws a string. A member that is not a function counts as missing. *)
Example backend_failure_and_data_member :
  result_of (write nat sample_now sample_member (VString "f") (VString "x")
               (new_Fsx 1) 5) =
    inr (Thrown (VString "read-only")) /\
  result_of (json nat sample_now sample_member (VString "f") (new_Fsx 1) 5) =
    inr (new_NoSuchMethodError "json").
Proof. split; reflexivity. Qed.

(** [logStart] refuses the empty string and values that are not strings;
    [logEnd] refuses a name that is not open. *)
Example log_name_errors :
  result_of (logStart nat (VString EmptyString) (new_Fsx 0) 5) =
    inr (TypeError "Log name must be a non-empty string.") /\
  result_of (logStart nat (VNumber 3) (new_Fsx 0) 5) =
    inr (TypeError "Log name must be a non-empty string.") /\
  result_of (logStart nat (VString "a") sample_swapped 5) =
    inr (Error ("Log " ++ dquote ++ "a" ++ dquote ++ " already exists.")) /\
  result_of (logEnd nat "y" (new_Fsx 0) 5) =
    inr (Error ("Log " ++ dquote ++ "y" ++ dquote ++ " does not exist.")).
Proof. repeat split. Qed.

(** On a facade whose implementation is object 1, [text("f")] is answered
    by the member of object 1, which echoes its argument and advances the
    world. *)
Lemma facade_forwards_to_impl_witness :
  sample_member 1 "text" = Function (fun _ a w => (inl (hd VUndefined a), S w)) /\
  invoke nat sample_now sample_member (Text (VString "f")) (new_Fsx 1) 5 =
  (inl (VString "f"), new_Fsx 1, 6).
Proof.
  split; [reflexivity|].
  exact (proj1 (facade_forwards_to_impl nat sample_now sample_member
                  (Text (VString "f")) (new_Fsx 1) 5 _ eq_refl)).
Defined.


(** C4 as stated fails: [setImpl(base); setImpl(other)] on a new facade with
    base object 0. The first call succeeds and leaves the base
    implementation active, so the second call succeeds too and installs
    object 1. *)
Lemma second_setImpl_after_base_accepted :
  ~ second_setImpl_refused nat sample_now (new_Fsx 0) 5 0 1.
Proof.
  unfold second_setImpl_refused. cbn. intros H.
  destruct (H eq_refl) as [Hres _]. discriminate Hres.
Qed.

(** C4 (amended), on a new facade with base object 0: [setImpl(1)] then
    [setImpl(2)]. *)
Lemma second_setImpl_refused_after_swap_witness :
  1 <> baseImpl (new_Fsx 0) /\
  result_of (setImpl nat sample_now 1 (new_Fsx 0) 5) = inl tt /\
  result_of (setImpl nat sample_now 2
               (state_of (setImpl nat sample_now 1 (new_Fsx 0) 5))
               (world_of (setImpl nat sample_now 1 (new_Fsx 0) 5))) =
    inr new_ImplAreadySetError /\
  impl (state_of (setImpl nat sample_now 2
                    (state_of (setImpl nat sample_now 1 (new_Fsx 0) 5))
                    (world_of (setImpl nat sample_now 1 (new_Fsx 0) 5)))) = 1.
Proof.
  assert (Hne : 1 <> baseImpl (new_Fsx 0)) by discriminate.
  split; [exact Hne|]. split; [reflexivity|].
  exact (second_setImpl_refused_after_swap nat sample_now (new_Fsx 0) 5 1 2
           Hne eq_refl).
Defined.

(** C5 as stated fails: [setImpl(base)] on a new facade with base object 0
    does not throw, and [isBaseImpl()] still answers true. *)
Lemma isBaseImpl_true_after_setImpl_base :
  ~ not_base_after_setImpl nat sample_now (new_Fsx 0) 5 0.
Proof.
  unfold not_base_after_setImpl. cbn. intros H.
  specialize (H eq_refl). discriminate H.
Qed.

(** C5 (amended), on a new facade with base object 0 and [setImpl(1)]. *)
Lemma isBaseImpl_after_control_calls_witness :
  result_of (setImpl nat sample_now 1 (new_Fsx 0) 5) = inl tt /\
  1 <> baseImpl (new_Fsx 0) /\
  result_of (isBaseImpl nat
               (state_of (setImpl nat sample_now 1 (new_Fsx 0) 5))
               (world_of (setImpl nat sample_now 1 (new_Fsx 0) 5))) = inl false.
Proof.
  assert (Hne : 1 <> baseImpl (new_Fsx 0)) by discriminate.
  split; [reflexivity|]. split; [exact Hne|].
  exact (proj2 (proj2 (isBaseImpl_after_control_calls nat sample_now
                         (new_Fsx 0) 5 1)) eq_refl Hne).
Defined.

(** The two sample states are states the facade reaches. *)
Lemma sample_states_reached :
  state_of (logStart nat (VString "a")
              (state_of (setImpl nat sample_now 1 (new_Fsx 0) 5)) 5) =
    sample_swapped /\
  state_of (logStart nat (VString "b")
              (state_of (text nat sample_now sample_member (VString "f")
                          (state_of (logStart nat (VString "a") (new_Fsx 0) 5)) 5))
              6) =
    sample_two_logs.
Proof. split; reflexivity. Qed.

(** C7 as stated fails: on the facade with object 1 swapped in and the log
    [a] open, [setImpl(2)] throws [ImplAreadySetError] after it has pushed
    its [implSet] entry on [a]. *)
Lemma refused_setImpl_changes_open_log :
  ~ refused_setImpl_leaves_state nat sample_now sample_swapped 5 2.
Proof.
  unfold refused_setImpl_leaves_state. cbn. intros H.
  destruct (H eq_refl) as [Hlogs _]. discriminate Hlogs.
Qed.

(** C7 (amended), on the same facade: a refused [setImpl(2)] and a
    [logStart("a")] refused as a duplicate. *)
Lemma failed_control_call_effect_witness :
  (result_of (setImpl nat sample_now 2 sample_swapped 5) =
     inr new_ImplAreadySetError /\
   impl (state_of (setImpl nat sample_now 2 sample_swapped 5)) = 1 /\
   Map_keys (logs (state_of (setImpl nat sample_now 2 sample_swapped 5))) =
     ["a"]) /\
  (result_of (logStart nat (VString "a") sample_swapped 5) =
     inr (Error (log_exists_message "a")) /\
   state_of (logStart nat (VString "a") sample_swapped 5) = sample_swapped).
Proof.
  destruct (failed_control_call_effect nat sample_now sample_swapped 5)
    as [Hset Hstart].
  split.
  - split; [reflexivity|].
    destruct (Hset 2 eq_refl) as (Himpl & _ & Hkeys & _).
    split; [exact Himpl|exact Hkeys].
  - split; [reflexivity|].
    exact (proj1 (Hstart (VString "a") (Error (log_exists_message "a")) eq_refl)).
Defined.

(** C8, on a new facade: [logStart("a")], [text("f")], [write("f", "x")]
    (which fails, object 0 having no [write]) and [logEnd("a")]. *)
Lemma logEnd_returns_calls_in_order_witness :
  "a" <> EmptyString /\
  Map_has "a" (logs (new_Fsx 0)) = false /\
  exists e1 e2,
    result_of
      (logEnd nat "a"
         (state_of
            (invoke nat sample_now sample_member (Write (VString "f") (VString "x"))
               (state_of
                  (invoke nat sample_now sample_member (Text (VString "f"))
                     (state_of (logStart nat (VString "a") (new_Fsx 0) 5))
                     (world_of (logStart nat (VString "a") (new_Fsx 0) 5))))
               (world_of
                  (invoke nat sample_now sample_member (Text (VString "f"))
                     (state_of (logStart nat (VString "a") (new_Fsx 0) 5))
                     (world_of (logStart nat (VString "a") (new_Fsx 0) 5))))))
         (world_of
            (invoke nat sample_now sample_member (Write (VString "f") (VString "x"))
               (state_of
                  (invoke nat sample_now sample_member (Text (VString "f"))
                     (state_of (logStart nat (VString "a") (new_Fsx 0) 5))
                     (world_of (logStart nat (VString "a") (new_Fsx 0) 5))))
               (world_of
                  (invoke nat sample_now sample_member (Text (VString "f"))
                     (state_of (logStart nat (VString "a") (new_Fsx 0) 5))
                     (world_of (logStart nat (VString "a") (new_Fsx 0) 5)))))))
    = inl [e1; e2] /\
    entry_call e1 = ("text", [VString "f"]) /\
    entry_call e2 = ("write", [VString "f"; VString "x"]).
Proof.
  assert (Hname : "a" <> EmptyString) by discriminate.
  split; [exact Hname|]. split; [reflexivity|].
  exact (proj1 (logEnd_returns_calls_in_order nat sample_now sample_member
                  "a" (Text (VString "f")) (Write (VString "f") (VString "x"))
                  [] (new_Fsx 0) 5 Hname eq_refl)).
Defined.

(** C9, on the facade with the logs [a] and [b] open: a [json("g")] call. *)
Lemma concurrent_logs_independent_witness :
  "a" <> "b" /\
  Map_get "a" (logs sample_two_logs) = Some [mkLogEntry "text" [VString "f"] 5] /\
  Map_get "b" (logs sample_two_logs) = Some [] /\
  Map_get "b" (logs (state_of (logEnd nat "a" sample_two_logs 6))) = Some [] /\
  exists rb,
    Map_get "b"
      (logs (state_of
               (invoke nat sample_now sample_member (Json (VString "g"))
                  (state_of (logEnd nat "a" sample_two_logs 6))
                  (world_of (logEnd nat "a" sample_two_logs 6))))) =
      Some [rb] /\
    entry_call rb = ("json", [VString "g"]).
Proof.
  assert (Hab : "a" <> "b") by discriminate.
  split; [exact Hab|]. split; [reflexivity|]. split; [reflexivity|].
  destruct (concurrent_logs_independent nat sample_now sample_member
              "a" "b" _ _ (Json (VString "g")) 1 sample_two_logs 6
              Hab eq_refl eq_refl)
    as (_ & _ & _ & _ & Hb & rb & Hget & Hcall & _).
  split; [exact Hb|].
  exists rb. split; [exact Hget|exact Hcall].
Defined.

(** C10, on the facade with object 1 swapped in and the log [a] open. *)
Lemma control_calls_in_the_log_witness :
  Map_get "a" (logs sample_swapped) = Some [] /\
  (exists e,
      Map_get "a" (logs (state_of (resetImpl nat sample_now sample_swapped 5))) =
        Some [e] /\
      methodName e = "implReset" /\ args e = []) /\
  Map_get "a" (logs (state_of (logStart nat (VString "b") sample_swapped 5))) =
    Some [].
Proof.
  split; [reflexivity|].
  destruct (control_calls_in_the_log nat sample_now "a" [] sample_swapped 5
              eq_refl) as (_ & Hreset & Hstart & _).
  split; [exact Hreset|exact (Hstart (VString "b"))].
Defined.

(** ** The further properties run on the sample environment *)

(** X4, on the facade with the log [a] open: [logStart("b")] succeeds and
    [logStart("a")] is refused. *)
Lemma logStart_outcomes_witness :
  logStart nat (VString "b") sample_swapped 5 =
    (inl tt, with_logs sample_swapped [("a", []); ("b", [])], 5) /\
  logStart nat (VString "a") sample_swapped 5 =
    (inr (Error (log_exists_message "a")), sample_swapped, 5) /\
  logStart nat VNull sample_swapped 5 =
    (inr (TypeError "Log name must be a non-empty string."), sample_swapped, 5).
Proof.
  assert (Hb : "b" <> EmptyString) by discriminate.
  assert (Ha : "a" <> EmptyString) by discriminate.
  split; [|split].
  - exact (proj1 (proj2 (logStart_outcomes nat (VString "b") sample_swapped 5))
             "b" eq_refl Hb eq_refl).
  - exact (proj1 (proj2 (proj2 (logStart_outcomes nat (VString "a")
                                  sample_swapped 5)))
             "a" eq_refl Ha eq_refl).
  - exact (proj2 (proj2 (proj2 (logStart_outcomes nat VNull sample_swapped 5)))
             (or_introl eq_refl)).
Defined.

(** X5, on the facade with the logs [a] and [b] open: [logEnd("c")]. *)
Lemma logEnd_outcomes_witness :
  Map_has "c" (logs sample_two_logs) = false /\
  logEnd nat "c" sample_two_logs 6 =
    (inr (Error (log_missing_message "c")), sample_two_logs, 6).
Proof.
  split; [reflexivity|].
  exact (proj1 (proj2 (logEnd_outcomes nat "c" sample_two_logs 6)) eq_refl).
Defined.

(** X6, on the facade with the logs [a] and [b] open: [logStart("c")] and
    [logEnd("c")]. *)
Lemma logStart_logEnd_round_trip_witness :
  "c" <> EmptyString /\
  Map_has "c" (logs sample_two_logs) = false /\
  logEnd nat "c"
    (state_of (logStart nat (VString "c") sample_two_logs 6))
    (world_of (logStart nat (VString "c") sample_two_logs 6)) =
  (inl [], sample_two_logs, 6).
Proof.
  assert (Hc : "c" <> EmptyString) by discriminate.
  split; [exact Hc|]. split; [reflexivity|].
  exact (logStart_logEnd_round_trip nat "c" sample_two_logs 6 Hc eq_refl).
Defined.

(** X7, on the facade with object 1 swapped in: [setImpl(2)] is refused. *)
Lemma setImpl_succeeds_iff_base_witness :
  result_of (setImpl nat sample_now 2 sample_swapped 5) <> inl tt /\
  result_of (setImpl nat sample_now 2 sample_swapped 5) =
    inr new_ImplAreadySetError /\
  impl (state_of (setImpl nat sample_now 2 sample_swapped 5)) = 1.
Proof.
  assert (Hfail : result_of (setImpl nat sample_now 2 sample_swapped 5) <> inl tt)
    by discriminate.
  split; [exact Hfail|].
  exact (proj2 (proj2 (proj2 (setImpl_succeeds_iff_base nat sample_now 2
                                sample_swapped 5))) Hfail).
Defined.

(** X9, on a new facade over object 0: [text("f")] after [setImpl(1)] is
    echoed by object 1, and after [resetImpl()] answered by object 0. *)
Lemma swap_redirects_dispatch_witness :
  impl (new_Fsx 0) = baseImpl (new_Fsx 0) /\
  result_of
    (invoke nat sample_now sample_member (Text (VString "f"))
       (state_of (setImpl nat sample_now 1 (new_Fsx 0) 5))
       (world_of (setImpl nat sample_now 1 (new_Fsx 0) 5))) =
    inl (VString "f") /\
  result_of
    (invoke nat sample_now sample_member (Text (VString "f"))
       (state_of (resetImpl nat sample_now
                    (state_of (setImpl nat sample_now 1 (new_Fsx 0) 5))
                    (world_of (setImpl nat sample_now 1 (new_Fsx 0) 5))))
       (world_of (resetImpl nat sample_now
                    (state_of (setImpl nat sample_now 1 (new_Fsx 0) 5))
                    (world_of (setImpl nat sample_now 1 (new_Fsx 0) 5))))) =
    inl (VString "base").
Proof.
  split; [reflexivity|].
  exact (swap_redirects_dispatch nat sample_now sample_member
           1 (Text (VString "f")) _ _ (new_Fsx 0) 5 eq_refl eq_refl eq_refl).
Defined.

(** X10, on a new facade over object 1: [text("f")] advances the world
    only by what the backend does. *)
Lemma no_open_log_no_record_witness :
  logs (new_Fsx 1) = [] /\
  invoke nat sample_now sample_member (Text (VString "f")) (new_Fsx 1) 5 =
    (inl (VString "f"), new_Fsx 1, 6) /\
  world_of (setImpl nat sample_now 2 (new_Fsx 1) 5) = 5.
Proof.
  split; [reflexivity|].
  destruct (no_open_log_no_record nat sample_now sample_member
              (Text (VString "f")) 2 (new_Fsx 1) 5 eq_refl)
    as (_ & Hcall & _ & Hset & _).
  split; [exact (Hcall _ eq_refl)|exact Hset].
Defined.

(** X12, on the facade with the logs [a] and [b] open: [logEnd("a")] twice,
    and [logStart("a")] after the first. *)
Lemma logEnd_once_then_reopen_witness :
  "a" <> EmptyString /\
  Map_get "a" (logs sample_two_logs) = Some [mkLogEntry "text" [VString "f"] 5] /\
  result_of
    (logEnd nat "a" (state_of (logEnd nat "a" sample_two_logs 6))
       (world_of (logEnd nat "a" sample_two_logs 6))) =
    inr (Error (log_missing_message "a")) /\
  Map_get "a"
    (logs (state_of
             (logStart nat (VString "a")
                (state_of (logEnd nat "a" sample_two_logs 6))
                (world_of (logEnd nat "a" sample_two_logs 6))))) = Some [].
Proof.
  assert (Ha : "a" <> EmptyString) by discriminate.
  split; [exact Ha|]. split; [reflexivity|].
  destruct (logEnd_once_then_reopen nat "a" _ sample_two_logs 6 Ha eq_refl)
    as (_ & Hagain & _ & Hnew).
  split; [now rewrite Hagain|exact Hnew].
Defined.

(** X13, on the facade with object 1 swapped in and the log [a] open:
    [text("f")], [logStart("b")], a refused [setImpl(2)], [logEnd("b")],
    [isBaseImpl()] and [resetImpl()]. *)
Lemma open_log_accumulates_witness :
  existsb (ends_log "a")
    [OpCall (Text (VString "f")); OpLogStart (VString "b"); OpSetImpl 2;
     OpLogEnd "b"; OpIsBaseImpl; OpResetImpl] = false /\
  Map_get "a" (logs sample_swapped) = Some [] /\
  exists es,
    Map_get "a"
      (logs (fst (run_ops nat sample_now sample_member
                    [OpCall (Text (VString "f")); OpLogStart (VString "b");
                     OpSetImpl 2; OpLogEnd "b"; OpIsBaseImpl; OpResetImpl]
                    sample_swapped 5))) = Some es /\
    map entry_call es =
      [("text", [VString "f"]); ("implSet", [VObject 2]); ("implReset", [])].
Proof.
  split; [reflexivity|]. split; [reflexivity|].
  exact (open_log_accumulates nat sample_now sample_member "a"
           [OpCall (Text (VString "f")); OpLogStart (VString "b"); OpSetImpl 2;
            OpLogEnd "b"; OpIsBaseImpl; OpResetImpl]
           [] sample_swapped 5 eq_refl eq_refl).
Defined.

(** C1 as stated fails: [text("f", "extra")] on a facade whose
    implementation answers every call with the number of arguments it
    received. The member called with the caller's two arguments returns 2;
    the facade hands it the one declared parameter and returns 1. *)
Lemma text_drops_surplus_argument :
  ~ forwards_actuals nat sample_now counting_member
      DText [VString "f"; VString "extra"] (new_Fsx 0) 5.
Proof.
  unfold forwards_actuals. intros H.
  specialize (H _ eq_refl). cbn in H. discriminate H.
Qed.

(** The same facade called with too few arguments: [write("f")] reaches the
    member as two arguments, the second [undefined]. *)
Example write_pads_missing_argument :
  apply_method nat sample_now sample_member DWrite [VString "f"] =
    invoke nat sample_now sample_member (Write (VString "f") VUndefined) /\
  result_of (apply_method nat sample_now counting_member DWrite [VString "f"]
               (new_Fsx 0) 5) = inl (VNumber 2).
Proof. split; reflexivity. Qed.

(** C1 (amended), on the counting facade: [text("f", "extra")] is answered
    by the member called with the single argument ["f"]. *)
Lemma facade_forwards_declared_parameters_witness :
  counting_member (impl (new_Fsx 0)) (method_name DText) =
    Function (fun _ a w => (inl (VNumber (Z.of_nat (List.length a))), w)) /\
  apply_method nat sample_now counting_member
    DText [VString "f"; VString "extra"] (new_Fsx 0) 5 =
  (inl (VNumber 1), new_Fsx 0, 5).
Proof.
  split; [reflexivity|].
  exact (proj1 (facade_forwards_declared_parameters nat sample_now
                  counting_member DText [VString "f"; VString "extra"]
                  (new_Fsx 0) 5 _ eq_refl)).
Defined.
